(** * proplot.rcmod: the settings registry [rc] and the scoped override
    [rc_context]

    A shallow embedding of [src/proplot/rcmod.py].  Python dictionaries are
    association lists in insertion order (iteration order is observable: the
    category scan of [__getitem__] returns at the first match and
    [rc_context.__exit__] replays a snapshot entry by entry).  Code that
    mutates [rcParams] or the attributes of [rc] is a state transformer that
    keeps the state reached when an exception is raised, since no write is
    ever rolled back. *)

From Stdlib Require Import PrimFloat SpecFloat FloatOps ZArith String Ascii List Bool Lia.
Import ListNotations.

Set Warnings "-inexact-float,-register-all".
Local Open Scope list_scope.
Local Open Scope string_scope.

(** ** Values and exceptions *)

(** The Python values that settings hold.  [VCycler prop colors] is the object
    built by [cycler(prop, colors)]. *)
Inductive value : Type :=
| VNone
| VBool (b : bool)
| VInt (z : Z)
| VFloat (f : float)
| VStr (s : string)
| VTuple (items : list value)
| VList (items : list value)
| VDict (items : list (string * value))
| VCycler (prop : string) (colors : value).

(** [isinstance(value, dict)] and [isinstance(value, str)]. *)
Definition is_dict (v : value) : bool :=
  match v with VDict _ => true | _ => false end.

Definition is_str (v : value) : bool :=
  match v with VStr _ => true | _ => false end.

(** The exceptions the module can end with.  [ValueError] carries the message
    the source formats; [KeyError] is what indexing a dictionary with an absent
    key raises; [TypeError] and [OverflowError] are what the host's operators
    raise.
    [Unmodelled] marks the two places where the embedding stops: a key that is
    not in the modelled fragment of regular expressions, and recursion deeper
    than [__setitem__] ever goes. *)
Inductive exn : Type :=
| ValueError (msg : string)
| KeyError (key : string)
| TypeError (msg : string)
| OverflowError (msg : string)
| Unmodelled (what : string).

Inductive result (A : Type) : Type :=
| Ok (a : A)
| Raise (e : exn).
Arguments Ok {A} a.
Arguments Raise {A} e.

(** ** Dictionaries *)

Module Dict.

Definition t (V : Type) : Type := list (string * V).

Definition keys {V} (d : t V) : list string := map fst d.

(** [d.get(k)] *)
Fixpoint get {V} (d : t V) (k : string) : option V :=
  match d with
  | [] => None
  | (k', v) :: d' => if String.eqb k' k then Some v else get d' k
  end.

(** [k in d] *)
Definition mem {V} (d : t V) (k : string) : bool :=
  match get d k with Some _ => true | None => false end.

(** [d[k]] *)
Definition item {V} (d : t V) (k : string) : result V :=
  match get d k with Some v => Ok v | None => Raise (KeyError k) end.

(** [d[k] = v]: an existing key keeps its place, a new one goes last. *)
Fixpoint set {V} (d : t V) (k : string) (v : V) : t V :=
  match d with
  | [] => [(k, v)]
  | (k', v') :: d' =>
      if String.eqb k' k then (k', v) :: d' else (k', v') :: set d' k v
  end.

(** [{**a, **b}], also [a.update(b)] on a copy of [a]. *)
Definition update {V} (a b : t V) : t V :=
  fold_left (fun acc kv => set acc (fst kv) (snd kv)) b a.

(** [not d] *)
Definition is_empty {V} (d : t V) : bool :=
  match d with [] => true | _ :: _ => false end.

End Dict.

Abbreviation dict := (Dict.t value).

(** ** The fragment of [re] the key patterns live in

    [__getitem__] pastes the key into three patterns: [^key$], [^key\.] and
    [^key.].  A key without regular-expression operators other than the dot
    denotes a fixed-length pattern: each character stands for itself and a dot
    for any character but a newline.  Keys with other operators are outside
    the fragment. *)

Inductive atom : Type :=
| Lit (c : ascii)
| AnyChar.

Definition newline : ascii := "010"%char.
Definition dot : ascii := "."%char.

Definition is_meta (c : ascii) : bool :=
  existsb (Ascii.eqb c) (list_ascii_of_string "\^$*+?{}[]|()").

Fixpoint pattern_of (key : string) : option (list atom) :=
  match key with
  | EmptyString => Some []
  | String c rest =>
      if is_meta c then None
      else match pattern_of rest with
           | Some p => Some ((if Ascii.eqb c dot then AnyChar else Lit c) :: p)
           | None => None
           end
  end.

Definition atom_matches (a : atom) (c : ascii) : bool :=
  match a with
  | Lit x => Ascii.eqb x c
  | AnyChar => negb (Ascii.eqb c newline)
  end.

(** Match the atoms at the start of [s]; the result is what follows them. *)
Fixpoint match_prefix (p : list atom) (s : string) : option string :=
  match p, s with
  | [], _ => Some s
  | a :: p', String c s' => if atom_matches a c then match_prefix p' s' else None
  | _ :: _, EmptyString => None
  end.

(** [re.match(f'^{key}$', s)]: [$] is the end of the string or the place
    before a newline that ends it. *)
Definition re_match_full (p : list atom) (s : string) : bool :=
  match match_prefix p s with
  | Some rest => String.eqb rest "" || String.eqb rest (String newline "")
  | None => false
  end.

(** [re.search(f'^{key}\.', s)] *)
Definition re_search_dot (p : list atom) (s : string) : bool :=
  match match_prefix (p ++ [Lit dot])%list s with
  | Some _ => true
  | None => false
  end.

(** [re.sub(f'^{key}.', '', s)] *)
Definition re_sub_any (p : list atom) (s : string) : string :=
  match match_prefix (p ++ [AnyChar])%list s with
  | Some rest => rest
  | None => s
  end.

(** ['.' in s] *)
Fixpoint contains_dot (s : string) : bool :=
  match s with
  | EmptyString => false
  | String c s' => Ascii.eqb c dot || contains_dot s'
  end.

(** ** The static tables *)

Definition rcGlobals : dict :=
  [ ("color", VStr "k");
    ("facecolor", VStr "w");
    ("small", VInt 8);
    ("large", VInt 9);
    ("linewidth", VFloat 0.6);
    ("bottom", VBool true);
    ("top", VBool false);
    ("left", VBool true);
    ("right", VBool false);
    ("ticklen", VFloat 4.0);
    ("tickpad", VFloat 2.0);
    ("inout", VStr "out");
    ("fontname", VStr "DejaVu Sans");
    ("tickratio", VFloat 0.5);
    ("minorwidth", VFloat 0.8) ].

Definition rcGlobals_children : Dict.t (list string) :=
  [ ("color", ["axes.labelcolor"; "axes.edgecolor"; "xtick.color"; "ytick.color"]);
    ("facecolor", ["axes.facecolor"]);
    ("small", ["font.size"; "xtick.labelsize"; "ytick.labelsize";
               "axes.labelsize"; "legend.fontsize"]);
    ("large", ["abc.fontsize"; "figure.titlesize"; "axes.titlesize"]);
    ("linewidth", ["axes.linewidth"; "grid.linewidth";
                   "xtick.major.width"; "ytick.major.width"]);
    ("fontname", ["font.sans-serif"]);
    ("bottom", ["xtick.major.bottom"; "xtick.minor.bottom"]);
    ("top", ["xtick.major.top"; "xtick.minor.top"]);
    ("left", ["ytick.major.left"; "ytick.minor.left"]);
    ("right", ["ytick.major.right"; "ytick.minor.right"]);
    ("ticklen", ["xtick.major.size"; "ytick.major.size"]);
    ("inout", ["xtick.direction"; "ytick.direction"]);
    ("tickpad", ["xtick.major.pad"; "xtick.minor.pad";
                 "ytick.major.pad"; "ytick.minor.pad"]) ].

Definition rcSpecial : dict :=
  [ ("abc.fontsize", VInt 9);
    ("gridminor.linewidth", VFloat (0.6 * 0.8));
    ("axes.facehatch", VNone);
    ("abc.weight", VStr "bold");
    ("gridminor.color", VStr "k");
    ("gridminor.alpha", VFloat 0.1);
    ("gridminor.linestyle", VStr "-");
    ("land.linewidth", VInt 0);
    ("land.color", VStr "k");
    ("ocean.linewidth", VInt 0);
    ("ocean.color", VStr "w");
    ("coastline.linewidth", VFloat 1.0);
    ("lonlatlines.linewidth", VFloat 1.0);
    ("lonlatlines.linestyle", VStr "--");
    ("lonlatlines.alpha", VFloat 0.4);
    ("lonlatlines.color", VStr "k");
    ("subplots.title", VFloat 0.1);
    ("subplots.inner", VFloat 0.2);
    ("subplots.legend", VFloat 0.25);
    ("subplots.cbar", VFloat 0.17);
    ("subplots.ylab", VFloat 0.7);
    ("subplots.xlab", VFloat 0.55);
    ("subplots.nolab", VFloat 0.15) ].

(** [rcGlobals_children.get(key, [])] *)
Definition children (key : string) : list string :=
  match Dict.get rcGlobals_children key with
  | Some names => names
  | None => []
  end.

(** [{alias for alias,names in rcGlobals_children.items() if key in names}],
    in table order. *)
Definition alias_of (key : string) : list string :=
  map fst
    (filter (fun entry => existsb (String.eqb key) (snd entry)) rcGlobals_children).

(** The key [__setitem__] works on once [alias.pop()] has replaced an
    alias-controlled key. *)
Definition resolve (key : string) : string :=
  match alias_of key with
  | a :: _ => a
  | [] => key
  end.

(** ** The host and the collaborators

    What the module takes from outside [src/]: Python's binary [*] (which the
    derived parameters are computed with, and which raises on operands it does
    not accept), [utils.isnumber], and [colortools.colors] as a
    function of the object whose items are its arguments.  On two floats [*] is the IEEE product. *)

Class Env : Type := {
  py_mul : value -> value -> result value;
  py_mul_float :
    forall a b : float, py_mul (VFloat a) (VFloat b) = Ok (VFloat (a * b));
  isnumber : value -> bool;
  colortools_colors : value -> result value
}.

(** ** The state

    [rcParams] is matplotlib's store, an injected mapping; the three [self_]
    fields are the attributes of the one [rc_configurator] instance [rc];
    [figures] holds, for every open figure, the colour cycle of each of its
    axes. *)

Record state : Type := {
  rcParams : dict;
  self_rcSpecial : dict;
  self_rcGlobals : dict;
  self_init : bool;
  figures : list (list value)
}.

Definition with_rcParams (s : state) (d : dict) : state :=
  {| rcParams := d; self_rcSpecial := self_rcSpecial s;
     self_rcGlobals := self_rcGlobals s; self_init := self_init s;
     figures := figures s |}.

Definition with_rcSpecial (s : state) (d : dict) : state :=
  {| rcParams := rcParams s; self_rcSpecial := d;
     self_rcGlobals := self_rcGlobals s; self_init := self_init s;
     figures := figures s |}.

Definition with_rcGlobals (s : state) (d : dict) : state :=
  {| rcParams := rcParams s; self_rcSpecial := self_rcSpecial s;
     self_rcGlobals := d; self_init := self_init s;
     figures := figures s |}.

Definition with_init (s : state) (b : bool) : state :=
  {| rcParams := rcParams s; self_rcSpecial := self_rcSpecial s;
     self_rcGlobals := self_rcGlobals s; self_init := b;
     figures := figures s |}.

Definition with_figures (s : state) (f : list (list value)) : state :=
  {| rcParams := rcParams s; self_rcSpecial := self_rcSpecial s;
     self_rcGlobals := self_rcGlobals s; self_init := self_init s;
     figures := f |}.

(** ** A state monad whose exceptions keep the state *)

Definition M (A : Type) : Type := state -> result A * state.

Definition ret {A} (a : A) : M A := fun s => (Ok a, s).

Definition bind {A B} (c : M A) (k : A -> M B) : M B :=
  fun s =>
    match c s with
    | (Ok a, s') => k a s'
    | (Raise e, s') => (Raise e, s')
    end.

Definition raise {A} (e : exn) : M A := fun s => (Raise e, s).

Definition lift {A} (r : result A) : M A := fun s => (r, s).

Definition gets {A} (f : state -> A) : M A := fun s => (Ok (f s), s).

Definition modify (f : state -> state) : M unit := fun s => (Ok tt, f s).

Declare Scope rc_scope.
Delimit Scope rc_scope with rc.
Notation "x <- c1 ;; c2" := (bind c1 (fun x => c2))
  (at level 61, c1 at next level, right associativity) : rc_scope.
Notation "c1 ;; c2" := (bind c1 (fun _ => c2))
  (at level 61, right associativity) : rc_scope.
Local Open Scope rc_scope.

(** [for x in l: f(x)] *)
Fixpoint for_each {A} (l : list A) (f : A -> M unit) : M unit :=
  match l with
  | [] => ret tt
  | x :: l' => f x ;; for_each l' f
  end.

(** [if b: c] *)
Definition when (b : bool) (c : M unit) : M unit :=
  if b then c else ret tt.

(** The double quote of the messages. *)
Definition dq : string := String "034"%char "".

Definition invalid_key (name : string) : exn :=
  ValueError ("Invalid key " ++ dq ++ name ++ dq ++ ".").

Definition invalid_key_for (name key : string) : exn :=
  ValueError ("Invalid key " ++ dq ++ name ++ dq ++ " for parameter "
              ++ dq ++ key ++ dq ++ ".").

Definition rcDefaults : dict :=
  [ ("figure.dpi", VInt 90);
    ("figure.facecolor", VTuple [VFloat 0.95; VFloat 0.95; VFloat 0.95; VInt 1]);
    ("figure.max_open_warning", VInt 0);
    ("figure.autolayout", VBool false);
    ("figure.titleweight", VStr "bold");
    ("savefig.facecolor", VTuple [VInt 1; VInt 1; VInt 1; VInt 1]);
    ("savefig.transparent", VBool true);
    ("savefig.dpi", VInt 300);
    ("savefig.pad_inches", VInt 0);
    ("savefig.directory", VStr "");
    ("savefig.bbox", VStr "standard");
    ("savefig.format", VStr "pdf");
    ("axes.facecolor", VTuple [VInt 1; VInt 1; VInt 1; VInt 1]);
    ("axes.xmargin", VInt 0);
    ("axes.ymargin", VFloat 0.05);
    ("axes.titleweight", VStr "normal");
    ("axes.labelweight", VStr "normal");
    ("axes.grid", VBool true);
    ("axes.labelpad", VFloat 3.0);
    ("axes.titlepad", VFloat 3.0);
    ("axes.axisbelow", VBool false);
    ("xtick.minor.visible", VBool true);
    ("ytick.minor.visible", VBool true);
    ("grid.color", VStr "k");
    ("grid.alpha", VFloat 0.1);
    ("grid.linestyle", VStr "-");
    ("grid.linewidth", VFloat 0.6);
    ("font.family", VStr "sans-serif");
    ("font.sans-serif", VStr "DejaVu Sans");
    ("mathtext.default", VStr "regular");
    ("mathtext.bf", VStr "sans:bold");
    ("mathtext.it", VStr "sans:it");
    ("text.latex.preamble", VStr "\usepackage{cmbright}");
    ("image.cmap", VStr "sunset");
    ("image.lut", VInt 256);
    ("patch.facecolor", VStr "C0");
    ("patch.edgecolor", VStr "k");
    ("patch.linewidth", VFloat 1.0);
    ("hatch.color", VStr "k");
    ("hatch.linewidth", VFloat 1.0);
    ("markers.fillstyle", VStr "full");
    ("scatter.marker", VStr "o");
    ("lines.linewidth", VFloat 1.3);
    ("lines.color", VStr "C0");
    ("lines.markeredgewidth", VInt 0);
    ("lines.markersize", VFloat 3.0);
    ("lines.dash_joinstyle", VStr "miter");
    ("lines.dash_capstyle", VStr "projecting");
    ("lines.solid_joinstyle", VStr "miter");
    ("lines.solid_capstyle", VStr "projecting");
    ("legend.fancybox", VBool false);
    ("legend.frameon", VBool false);
    ("legend.labelspacing", VFloat 0.5);
    ("legend.handletextpad", VFloat 0.5);
    ("legend.handlelength", VFloat 1.5);
    ("legend.columnspacing", VInt 1);
    ("legend.facecolor", VStr "w");
    ("legend.numpoints", VInt 1);
    ("legend.borderpad", VFloat 0.5);
    ("legend.borderaxespad", VInt 0) ].

(** ** The registry and the scoped override *)

Inductive scan : Type :=
| Stop (r : result value)
| Continue (params : dict).

(** The inner loop of [__getitem__] over the items of one store [d]:
    [Stop] is a [return] or a raised exception, [Continue] the [params]
    collected so far. *)
Fixpoint scan_items (key : string) (d items params : dict) : scan :=
  match items with
  | [] => Continue params
  | (category, _) :: rest =>
      match pattern_of key with
      | None => Stop (Raise (Unmodelled "pattern"))
      | Some p =>
          if re_match_full p category then Stop (Dict.item d key)
          else if re_search_dot p category then
            let subcategory := re_sub_any p category in
            if negb (String.eqb subcategory "") && negb (contains_dot subcategory)
            then match Dict.item d category with
                 | Ok v => scan_items key d rest (Dict.set params subcategory v)
                 | Raise e => Stop (Raise e)
                 end
            else scan_items key d rest params
          else scan_items key d rest params
      end
  end.

(** [rc_configurator.__getitem__] *)
Definition getitem (s : state) (key : string) : result value :=
  if String.eqb key "" then
    Ok (VDict (Dict.update (rcParams s) (self_rcSpecial s)))
  else if Dict.mem (self_rcGlobals s) key then
    Dict.item (self_rcGlobals s) key
  else
    match scan_items key (rcParams s) (rcParams s) [] with
    | Stop r => r
    | Continue params =>
        match scan_items key (self_rcSpecial s) (self_rcSpecial s) params with
        | Stop r => r
        | Continue params =>
            if Dict.is_empty params then Raise (invalid_key key)
            else Ok (VDict params)
        end
    end.

(** [rcParams[name] = v], [self._rcSpecial[name] = v] and
    [self._rcGlobals[name] = v]. *)
Definition set_rcParams (name : string) (v : value) : M unit :=
  modify (fun s => with_rcParams s (Dict.set (rcParams s) name v)).

Definition set_rcSpecial (name : string) (v : value) : M unit :=
  modify (fun s => with_rcSpecial s (Dict.set (self_rcSpecial s) name v)).

Definition set_rcGlobals (name : string) (v : value) : M unit :=
  modify (fun s => with_rcGlobals s (Dict.set (self_rcGlobals s) name v)).

(** [self._rcGlobals[name]] *)
Definition globals_item (name : string) : M value :=
  fun s => (Dict.item (self_rcGlobals s) name, s).

(** The write that three branches of [__setitem__] spell out: to [rcParams]
    if the name is there, else to [_rcSpecial] if it is there, else the
    branch's [ValueError]. *)
Definition store_write (name : string) (v : value) (e : exn) : M unit :=
  fun s =>
    if Dict.mem (rcParams s) name then set_rcParams name v s
    else if Dict.mem (self_rcSpecial s) name then set_rcSpecial name v s
    else (Raise e, s).

(** [ax.set_prop_cycle(c)] for every axes of every open figure. *)
Definition set_prop_cycles (c : value) : M unit :=
  modify (fun s => with_figures s (map (map (fun _ => c)) (figures s))).

Section Registry.

Context {env : Env}.

(** The block of [__setitem__] under [key in ('ticklen','tickratio')]. *)
Definition derive_minor_size (key : string) (val : value) : M unit :=
  when (String.eqb key "ticklen" || String.eqb key "tickratio")
    (ticklen <- (if String.eqb key "tickratio"
                 then globals_item "ticklen" else ret val) ;;
     ratio <- (if String.eqb key "tickratio"
               then ret val else globals_item "tickratio") ;;
     size <- lift (py_mul ticklen ratio) ;;
     set_rcParams "xtick.minor.size" size ;;
     size <- lift (py_mul ticklen ratio) ;;
     set_rcParams "ytick.minor.size" size).

(** The block under [key in ('linewidth','minorwidth')]. *)
Definition derive_minor_width (key : string) (val : value) : M unit :=
  when (String.eqb key "linewidth" || String.eqb key "minorwidth")
    (tickwidth <- (if String.eqb key "linewidth"
                   then ret val else globals_item "linewidth") ;;
     ratio <- (if String.eqb key "linewidth"
               then globals_item "minorwidth" else ret val) ;;
     width <- lift (py_mul tickwidth ratio) ;;
     set_rcParams "xtick.minor.width" width ;;
     width <- lift (py_mul tickwidth ratio) ;;
     set_rcParams "ytick.minor.width" width ;;
     width <- lift (py_mul tickwidth ratio) ;;
     set_rcSpecial "gridminor.linewidth" width).

(** The branch [elif key in self._rcGlobals]. *)
Definition set_global (key : string) (val : value) : M unit :=
  set_rcGlobals key val ;;
  derive_minor_size key val ;;
  derive_minor_width key val ;;
  for_each (children key)
    (fun name => store_write name val (invalid_key name)).

(** The branch [elif not isinstance(value, dict)]. *)
Definition set_single (key : string) (val : value) : M unit :=
  store_write key val (invalid_key key).

(** The last branch, for a dictionary [kwargs]. *)
Definition set_batch (key : string) (kwargs : dict) : M unit :=
  for_each kwargs
    (fun kv =>
       let name := key ++ "." ++ fst kv in
       store_write name (snd kv) (invalid_key_for name key)).

(** [rc_configurator.__setitem__].  The [cycle] branch assigns
    ['axes.prop_cycle'] through [__setitem__] itself; [fuel] bounds that
    nesting, which never goes beyond one level. *)
Fixpoint setitem_rec (fuel : nat) (key : string) (val : value) : M unit :=
  match fuel with
  | O => raise (Unmodelled "recursion")
  | S fuel' =>
      let key := resolve key in
      (if String.eqb key "cycle" then
         let val := if is_str val || isnumber val then VTuple [val] else val in
         colors <- lift (colortools_colors (VTuple [VStr "colorblind"])) ;;
         setitem_rec fuel' "axes.prop_cycle" (VCycler "color" colors) ;;
         colors <- lift (colortools_colors val) ;;
         setitem_rec fuel' "axes.prop_cycle" (VCycler "color" colors) ;;
         set_prop_cycles (VCycler "color" colors)
       else
         in_globals <- gets (fun s => Dict.mem (self_rcGlobals s) key) ;;
         if in_globals then set_global key val
         else
           match val with
           | VDict kwargs => set_batch key kwargs
           | _ => set_single key val
           end) ;;
      modify (fun s => with_init s false)
  end.

Definition setitem (key : string) (val : value) : M unit :=
  setitem_rec 2 key val.

(** [rc_configurator.__init__], also [reset].  [style_default] is the
    store [style.use('default')] leaves. *)
Definition rc_init (style_default : dict) : M unit :=
  modify (fun s => with_rcParams s style_default) ;;
  modify (fun s => with_rcSpecial s rcSpecial) ;;
  modify (fun s => with_rcGlobals s rcGlobals) ;;
  for_each rcDefaults (fun kv => set_rcParams (fst kv) (snd kv)) ;;
  setitem "cycle" (VStr "colorblind") ;;
  (globals <- gets self_rcGlobals ;;
   for_each globals (fun kv => setitem (fst kv) (snd kv))) ;;
  modify (fun s => with_init s true).

Definition reset : dict -> M unit := rc_init.

(** An [rc_context] object: [_nochange] is true, or it is false and
    [_kwargs], [_special], [_rcparams] and [_ax] are set. *)
Inductive rc_context : Type :=
| NoChange
| Change (kwargs special rcparams : dict) (ax : value).

(** [for arg in args: ... kwargs.update(arg)] *)
Fixpoint merge_args (args : list value) (kwargs : dict) : result dict :=
  match args with
  | [] => Ok kwargs
  | VDict d :: rest => merge_args rest (Dict.update kwargs d)
  | _ :: _ =>
      Raise (ValueError "rc_context() only accepts dictionary args and kwarg pairs.")
  end.

(** [rc_context.__init__] *)
Definition rc_context_init (ax : value) (args : list value) (kwargs : dict)
  : M rc_context :=
  kwargs <- lift (merge_args args kwargs) ;;
  if Dict.is_empty kwargs then ret NoChange
  else
    special <- gets self_rcSpecial ;;
    rcparams <- gets rcParams ;;
    ret (Change kwargs special rcparams ax).

(** [rc_context.__enter__] *)
Definition rc_context_enter (c : rc_context) : M unit :=
  match c with
  | NoChange => ret tt
  | Change kwargs _ _ _ =>
      for_each kwargs (fun kv => setitem (fst kv) (snd kv))
  end.

(** [rc_context.__exit__]; it returns [None]. *)
Definition rc_context_exit (c : rc_context) : M unit :=
  match c with
  | NoChange => ret tt
  | Change _ special rcparams _ =>
      for_each (Dict.update rcparams special)
        (fun kv => setitem (fst kv) (snd kv))
  end.

(** [with c: body].  [__exit__] is not reached when [__enter__] raises; it
    runs however the body ends, and as it returns [None] an exception of the
    body is raised again after it. *)
Definition with_context {A} (c : rc_context) (body : M A) : M A :=
  fun s =>
    match rc_context_enter c s with
    | (Raise e, s1) => (Raise e, s1)
    | (Ok _, s1) =>
        let (r, s2) := body s1 in
        match rc_context_exit c s2 with
        | (Raise e, s3) => (Raise e, s3)
        | (Ok _, s3) => (r, s3)
        end
    end.

End Registry.

(** ** Vocabulary of the statements *)

(** The names of the global properties. *)
Definition global_names : list string := Dict.keys rcGlobals.

(** The instance's table of globals has the keys it was copied with. *)
Definition globals_keyed (s : state) : Prop :=
  Dict.keys (self_rcGlobals s) = global_names.

(** [key] exists in the external store or in the special store. *)
Definition held (s : state) (key : string) : bool :=
  Dict.mem (rcParams s) key || Dict.mem (self_rcSpecial s) key.

(** What [key] holds in the store a write to it goes to. *)
Definition stored (s : state) (key : string) : option value :=
  if Dict.mem (rcParams s) key then Dict.get (rcParams s) key
  else Dict.get (self_rcSpecial s) key.

(** [category] answers to [key] read as the pattern [^key$]. *)
Definition matches_key (key category : string) : bool :=
  match pattern_of key with
  | Some p => re_match_full p category
  | None => false
  end.


(** The merged view [{**rcParams, **self._rcSpecial}]. *)
Definition merged (s : state) : dict :=
  Dict.update (rcParams s) (self_rcSpecial s).


(** The keys [key.sub] a batch composes. *)
Definition composed (key : string) (kwargs : dict) : list string :=
  map (fun kv => key ++ "." ++ fst kv) kwargs.

(** No string occurs twice. *)
Fixpoint nodupb (l : list string) : bool :=
  match l with
  | [] => true
  | x :: l' => negb (existsb (String.eqb x) l') && nodupb l'
  end.

(** ** A reference host and a sample store *)

(** Python's conversion of an [int] to a [float]: the nearest double, ties to
    even, and [OverflowError] beyond the range. *)
Definition float_of_Z (z : Z) : result float :=
  let f := SF2Prim (binary_normalize prec emax z 0 false) in
  if is_infinity f then Raise (OverflowError "int too large to convert to float")
  else Ok f.

Definition as_int (v : value) : option Z :=
  match v with
  | VBool b => Some (if b then 1 else 0)%Z
  | VInt z => Some z
  | _ => None
  end.

Fixpoint repeat_string (n : nat) (s : string) : string :=
  match n with
  | O => ""
  | S n' => s ++ repeat_string n' s
  end.

Fixpoint repeat_list {A} (n : nat) (l : list A) : list A :=
  match n with
  | O => []
  | S n' => (l ++ repeat_list n' l)%list
  end.

(** [seq * n] for a sequence and an integer. *)
Definition repeat_value (v : value) (n : Z) : result value :=
  match v with
  | VStr s => Ok (VStr (repeat_string (Z.to_nat n) s))
  | VTuple l => Ok (VTuple (repeat_list (Z.to_nat n) l))
  | VList l => Ok (VList (repeat_list (Z.to_nat n) l))
  | _ => Raise (TypeError "unsupported operand type(s) for *")
  end.

(** [*] on numbers and sequences; other operands are a [TypeError] here. *)
Definition ref_mul (a b : value) : result value :=
  match a, b with
  | VFloat x, VFloat y => Ok (VFloat (x * y))
  | VFloat x, _ =>
      match as_int b with
      | Some z => match float_of_Z z with
                  | Ok y => Ok (VFloat (x * y))
                  | Raise e => Raise e
                  end
      | None => Raise (TypeError "can't multiply by non-int of type 'float'")
      end
  | _, VFloat y =>
      match as_int a with
      | Some z => match float_of_Z z with
                  | Ok x => Ok (VFloat (x * y))
                  | Raise e => Raise e
                  end
      | None => Raise (TypeError "can't multiply by non-int of type 'float'")
      end
  | _, _ =>
      match as_int a, as_int b with
      | Some x, Some y => Ok (VInt (x * y))
      | Some n, None => repeat_value b n
      | None, Some n => repeat_value a n
      | None, None => Raise (TypeError "unsupported operand type(s) for *")
      end
  end.

Definition ref_isnumber (v : value) : bool :=
  match v with
  | VBool _ | VInt _ | VFloat _ => true
  | _ => false
  end.

(** A host with [ref_mul] whose colour collaborator returns the names it is
    given. *)
Definition ref_env : Env :=
  {| py_mul := ref_mul;
     py_mul_float := fun a b => eq_refl;
     isnumber := ref_isnumber;
     colortools_colors := fun v => Ok v |}.

(** A sample of matplotlib's default style: the keys the tables above refer
    to, with matplotlib's defaults. *)
Definition sample_style : dict :=
  [ ("axes.edgecolor", VStr "black");
    ("axes.facecolor", VStr "white");
    ("axes.labelcolor", VStr "black");
    ("axes.labelsize", VStr "medium");
    ("axes.linewidth", VFloat 0.8);
    ("axes.prop_cycle", VCycler "color" (VList [VStr "#1f77b4"; VStr "#ff7f0e"]));
    ("axes.titlesize", VStr "large");
    ("figure.titlesize", VStr "large");
    ("font.sans-serif", VList [VStr "DejaVu Sans"; VStr "Arial"]);
    ("font.size", VFloat 10.0);
    ("grid.linewidth", VFloat 0.8);
    ("legend.fontsize", VStr "medium");
    ("xtick.color", VStr "black");
    ("xtick.direction", VStr "out");
    ("xtick.labelsize", VStr "medium");
    ("xtick.major.bottom", VBool true);
    ("xtick.major.pad", VFloat 3.5);
    ("xtick.major.size", VFloat 3.5);
    ("xtick.major.top", VBool true);
    ("xtick.major.width", VFloat 0.8);
    ("xtick.minor.bottom", VBool true);
    ("xtick.minor.pad", VFloat 3.4);
    ("xtick.minor.size", VFloat 2.0);
    ("xtick.minor.top", VBool true);
    ("xtick.minor.width", VFloat 0.6);
    ("ytick.color", VStr "black");
    ("ytick.direction", VStr "out");
    ("ytick.labelsize", VStr "medium");
    ("ytick.major.left", VBool true);
    ("ytick.major.pad", VFloat 3.5);
    ("ytick.major.right", VBool true);
    ("ytick.major.size", VFloat 3.5);
    ("ytick.major.width", VFloat 0.8);
    ("ytick.minor.left", VBool true);
    ("ytick.minor.pad", VFloat 3.4);
    ("ytick.minor.right", VBool true);
    ("ytick.minor.size", VFloat 2.0);
    ("ytick.minor.width", VFloat 0.6) ].

(** The state before [rc] exists: no settings, no open figure. *)
Definition blank : state :=
  {| rcParams := []; self_rcSpecial := []; self_rcGlobals := [];
     self_init := false; figures := [] |}.

(** The registry as [rc = rc_configurator()] leaves it on the reference host
    over the sample store. *)
Definition fresh : state :=
  Eval vm_compute in snd (@rc_init ref_env sample_style blank).

(** The registry after [rc['ytick'] = {'major.size': 7}], a batch write. *)
Definition unlinked : state :=
  Eval vm_compute in
    snd (@setitem ref_env "ytick" (VDict [("major.size", VFloat 7)]) fresh).

(** Every child key of the table, in table order. *)
Definition table_children : list string :=
  concat (map snd rcGlobals_children).

(** [c] only ever moves the state along [R], however it ends. *)
Definition respects (R : state -> state -> Prop) {A} (c : M A) : Prop :=
  forall s r s', c s = (r, s') -> R s s'.

(** The global [g] holds what it held. *)
Definition same_global (g : string) (s s' : state) : Prop :=
  Dict.get (self_rcGlobals s') g = Dict.get (self_rcGlobals s) g.

(** The table of globals has the keys it had. *)
Definition same_globals_keys (s s' : state) : Prop :=
  Dict.keys (self_rcGlobals s') = Dict.keys (self_rcGlobals s).

(** The keys [__setitem__] assigns without asking whether they exist. *)
Definition derived_rcParams : list string :=
  ["xtick.minor.size"; "ytick.minor.size"; "xtick.minor.width"; "ytick.minor.width"].

Definition derived_rcSpecial : list string := ["gridminor.linewidth"].

(** No store has lost a key, and none has gained one that is not derived. *)
Definition stores_kept (s s' : state) : Prop :=
  (forall k, Dict.mem (rcParams s) k = true -> Dict.mem (rcParams s') k = true)
  /\ (forall k, Dict.mem (rcParams s') k = true ->
                Dict.mem (rcParams s) k = true \/ In k derived_rcParams)
  /\ (forall k, Dict.mem (self_rcSpecial s) k = true ->
                Dict.mem (self_rcSpecial s') k = true)
  /\ (forall k, Dict.mem (self_rcSpecial s') k = true ->
                Dict.mem (self_rcSpecial s) k = true \/ In k derived_rcSpecial).


(** And of every global name: it is no child key, not empty, not ['cycle']
    and not ['axes.prop_cycle']. *)
Definition global_ok (g : string) : bool :=
  negb (existsb (String.eqb g) table_children)
  && negb (String.eqb g "") && negb (String.eqb g "cycle")
  && negb (String.eqb g "axes.prop_cycle").

(** ** Vocabulary of the further properties *)

(** Both stores hold under [k] what they held. *)
Definition same_at (k : string) (s s' : state) : Prop :=
  Dict.get (rcParams s') k = Dict.get (rcParams s) k
  /\ Dict.get (self_rcSpecial s') k = Dict.get (self_rcSpecial s) k.

(** The keys of the stores that a call on [key] with a value that is no
    mapping can assign: ['axes.prop_cycle'] for the colour cycle; otherwise
    the key the call works on, its children, and the derived keys of the
    block the key belongs to. *)
Definition footprint (key : string) : list string :=
  let key := resolve key in
  if String.eqb key "cycle" then ["axes.prop_cycle"]
  else (key :: children key
          ++ (if String.eqb key "ticklen" || String.eqb key "tickratio"
              then ["xtick.minor.size"; "ytick.minor.size"] else [])
          ++ (if String.eqb key "linewidth" || String.eqb key "minorwidth"
              then ["xtick.minor.width"; "ytick.minor.width";
                    "gridminor.linewidth"] else []))%list.



(** What the arguments of [rc_context.__init__] give for [k]: the entry of
    the last positional mapping that has the key, else the keyword argument. *)
Definition given (k : string) (ds : list dict) (kwargs : dict) : option value :=
  match find (fun d => Dict.mem d k) (rev ds) with
  | Some d => Dict.get d k
  | None => Dict.get kwargs k
  end.


(** [key] names a category of [names] and nothing else: every name that
    begins the way the pattern of [key] asks begins with [key] itself, and
    goes on after it by more than a newline. *)
Definition category_of (key : string) (names : list string) : bool :=
  match pattern_of key with
  | None => false
  | Some p =>
      forallb (fun c => match match_prefix p c with
                        | Some rest =>
                            String.eqb c (key ++ rest)
                            && negb (String.eqb rest "")
                            && negb (String.eqb rest (String newline ""))
                        | None => true
                        end) names
  end.

(** [subcategory and '.' not in subcategory] *)
Definition valid_sub (sub : string) : bool :=
  negb (String.eqb sub "") && negb (contains_dot sub).

(** What the stores hold for the sub-key [sub] of the category [key]: the
    special store's value of [key.sub] if it has one, else the external
    store's; nothing for an empty or dotted [sub]. *)
Definition sub_view (s : state) (key sub : string) : option value :=
  if valid_sub sub then
    match Dict.get (self_rcSpecial s) (key ++ "." ++ sub) with
    | Some v => Some v
    | None => Dict.get (rcParams s) (key ++ "." ++ sub)
    end
  else None.

(** The name [c], where it begins the way the pattern [p] of [key] asks,
    begins with [key] itself and goes on by more than a newline. *)
Definition begins_exactly (key : string) (p : list atom) (c : string) : Prop :=
  forall rest, match_prefix p c = Some rest ->
               c = key ++ rest /\ rest <> "" /\ rest <> String newline "".



(** * Facts *)

(** ** Dictionaries *)

Module DictFacts.

Section Facts.

Context {V : Type}.
Implicit Types (d a b : Dict.t V) (k : string) (v : V).

Lemma get_set_same d k v : Dict.get (Dict.set d k v) k = Some v.
Proof.
  induction d as [|[k' v'] d IH]; simpl.
  - now rewrite String.eqb_refl.
  - destruct (String.eqb k' k) eqn:E; simpl; rewrite E; auto.
Qed.

Lemma get_set_other d k k' v :
  k <> k' -> Dict.get (Dict.set d k v) k' = Dict.get d k'.
Proof.
  intros Hne. induction d as [|[k0 v0] d IH]; simpl.
  - destruct (String.eqb k k') eqn:E; auto.
    apply String.eqb_eq in E. contradiction.
  - destruct (String.eqb k0 k) eqn:E; simpl.
    + apply String.eqb_eq in E. subst k0.
      destruct (String.eqb k k') eqn:E'; auto.
      apply String.eqb_eq in E'. contradiction.
    + now rewrite IH.
Qed.

Lemma mem_set d k k' v :
  Dict.mem (Dict.set d k v) k' = String.eqb k k' || Dict.mem d k'.
Proof.
  unfold Dict.mem. destruct (String.eqb k k') eqn:E.
  - apply String.eqb_eq in E. subst. now rewrite get_set_same.
  - apply String.eqb_neq in E. now rewrite get_set_other.
Qed.

Lemma keys_set_mem d k v :
  Dict.mem d k = true -> Dict.keys (Dict.set d k v) = Dict.keys d.
Proof.
  unfold Dict.mem, Dict.keys. induction d as [|[k' v'] d IH]; simpl.
  - discriminate.
  - destruct (String.eqb k' k) eqn:E; simpl; auto.
    intros Hm. now rewrite IH.
Qed.


Lemma mem_keys d k : Dict.mem d k = true <-> In k (Dict.keys d).
Proof.
  unfold Dict.mem, Dict.keys. induction d as [|[k' v'] d IH]; simpl.
  - split; [discriminate | tauto].
  - destruct (String.eqb k' k) eqn:E.
    + apply String.eqb_eq in E. tauto.
    + apply String.eqb_neq in E. rewrite IH. split; [tauto|].
      intros [Heq|Hin]; [contradiction | assumption].
Qed.

Lemma mem_false_keys d k : Dict.mem d k = false <-> ~ In k (Dict.keys d).
Proof.
  rewrite <- mem_keys. destruct (Dict.mem d k); split; congruence.
Qed.




Lemma item_get d k v : Dict.get d k = Some v -> Dict.item d k = Ok v.
Proof. unfold Dict.item. now intros ->. Qed.

Lemma item_absent d k : Dict.mem d k = false -> Dict.item d k = Raise (KeyError k).
Proof.
  unfold Dict.item, Dict.mem. destruct (Dict.get d k); [discriminate | reflexivity].
Qed.

Lemma mem_cons k0 v0 d k :
  Dict.mem ((k0, v0) :: d) k = String.eqb k0 k || Dict.mem d k.
Proof. unfold Dict.mem. simpl. now destruct (String.eqb k0 k). Qed.

Lemma mem_update a b k :
  Dict.mem (Dict.update a b) k = Dict.mem a k || Dict.mem b k.
Proof.
  unfold Dict.update. revert a.
  induction b as [|[k' v'] b IH]; intros a; simpl.
  - change (Dict.mem (@nil (string * V)) k) with false.
    now rewrite orb_false_r.
  - rewrite IH, mem_set, mem_cons.
    now destruct (String.eqb k' k), (Dict.mem a k), (Dict.mem b k).
Qed.

End Facts.

End DictFacts.

(** ** Key patterns *)

Lemma dot_not_newline : Ascii.eqb dot newline = false.
Proof. reflexivity. Qed.

Lemma match_prefix_self key p :
  pattern_of key = Some p -> match_prefix p key = Some "".
Proof.
  revert p. induction key as [|c rest IH]; intros p; simpl.
  - now intros [= <-].
  - destruct (is_meta c); [discriminate|].
    destruct (pattern_of rest) as [p'|]; [|discriminate].
    intros [= <-]. simpl.
    destruct (Ascii.eqb c dot) eqn:E; simpl.
    + apply Ascii.eqb_eq in E. subst c. rewrite dot_not_newline. simpl. auto.
    + rewrite Ascii.eqb_refl. auto.
Qed.

Lemma re_match_full_self key p :
  pattern_of key = Some p -> re_match_full p key = true.
Proof.
  intros Hp. unfold re_match_full. now rewrite (match_prefix_self _ _ Hp).
Qed.

Lemma matches_key_self key :
  pattern_of key <> None -> matches_key key key = true.
Proof.
  unfold matches_key. destruct (pattern_of key) as [p|] eqn:E; [|congruence].
  intros _. now apply re_match_full_self.
Qed.

(** ** The alias table *)

Lemma nodupb_sound l : nodupb l = true -> NoDup l.
Proof.
  induction l as [|x l IH]; simpl; intros Hn; constructor.
  - apply andb_prop in Hn. destruct Hn as [Hx _].
    intros Hin. apply negb_true_iff in Hx.
    assert (existsb (String.eqb x) l = true) as Hex.
    { apply existsb_exists. exists x. split; [assumption | apply String.eqb_refl]. }
    congruence.
  - apply andb_prop in Hn. tauto.
Qed.

Lemma existsb_eqb_In k l : existsb (String.eqb k) l = true <-> In k l.
Proof.
  rewrite existsb_exists. split.
  - intros [x [Hin Heq]]. apply String.eqb_eq in Heq. now subst.
  - intros Hin. exists k. split; [assumption | apply String.eqb_refl].
Qed.

Lemma NoDup_app_disjoint {A} (l l' : list A) x :
  NoDup (l ++ l') -> In x l -> In x l' -> False.
Proof.
  induction l as [|a l IH]; simpl; [tauto|].
  intros Hn [Heq|Hin] Hin'.
  - subst a. inversion Hn as [|? ? Hnotin _]. apply Hnotin.
    apply in_or_app. now right.
  - inversion Hn. auto.
Qed.

Lemma NoDup_app_tail {A} (l l' : list A) : NoDup (l ++ l') -> NoDup l'.
Proof.
  induction l as [|a l IH]; simpl; [auto|].
  intros Hn. inversion Hn. auto.
Qed.

Lemma In_concat_entry (table : Dict.t (list string)) g names k :
  In (g, names) table -> In k names -> In k (concat (map snd table)).
Proof.
  intros Hin Hk. apply in_concat. exists names. split; [|assumption].
  change names with (snd (g, names)). now apply in_map.
Qed.

Lemma filter_miss (table : Dict.t (list string)) k :
  ~ In k (concat (map snd table)) ->
  filter (fun entry => existsb (String.eqb k) (snd entry)) table = [].
Proof.
  induction table as [|[g names] table IH]; simpl; [reflexivity|].
  intros Hnot. destruct (existsb (String.eqb k) names) eqn:E.
  - apply existsb_eqb_In in E. exfalso. apply Hnot. apply in_or_app. now left.
  - apply IH. intros Hin. apply Hnot. apply in_or_app. now right.
Qed.

Lemma filter_hit (table : Dict.t (list string)) k g names :
  NoDup (concat (map snd table)) ->
  In (g, names) table -> In k names ->
  filter (fun entry => existsb (String.eqb k) (snd entry)) table = [(g, names)].
Proof.
  induction table as [|[g0 names0] table IH]; simpl; [tauto|].
  intros Hn [Heq|Hin] Hk.
  - injection Heq as -> ->.
    assert (existsb (String.eqb k) names = true) as -> by now apply existsb_eqb_In.
    f_equal. apply filter_miss. intros Hin.
    exact (NoDup_app_disjoint _ _ _ Hn Hk Hin).
  - destruct (existsb (String.eqb k) names0) eqn:E.
    + apply existsb_eqb_In in E. exfalso.
      apply (NoDup_app_disjoint _ _ k Hn E).
      eapply In_concat_entry; eauto.
    + apply IH; auto. eapply NoDup_app_tail; eauto.
Qed.

Lemma table_children_nodup : NoDup table_children.
Proof. apply nodupb_sound. vm_compute. reflexivity. Qed.

(** A key of a child list has exactly one alias: the list's global. *)
Lemma alias_of_child g names k :
  In (g, names) rcGlobals_children -> In k names -> alias_of k = [g].
Proof.
  intros Hin Hk. unfold alias_of.
  rewrite (filter_hit _ k g names table_children_nodup Hin Hk). reflexivity.
Qed.

Lemma alias_of_other k : ~ In k table_children -> alias_of k = [].
Proof.
  intros Hnot. unfold alias_of. now rewrite filter_miss.
Qed.

(** [alias.pop()] never has a choice to make. *)
Lemma alias_of_at_most_one k : (length (alias_of k) <= 1)%nat.
Proof.
  destruct (in_dec string_dec k table_children) as [Hin|Hnot].
  - apply in_concat in Hin. destruct Hin as [names [Hnames Hk]].
    apply in_map_iff in Hnames. destruct Hnames as [[g names'] [Heq Hin]].
    simpl in Heq. subst names'.
    rewrite (alias_of_child g names k Hin Hk). simpl. lia.
  - rewrite alias_of_other by assumption. simpl. lia.
Qed.

Lemma resolve_child g names k :
  In (g, names) rcGlobals_children -> In k names -> resolve k = g.
Proof.
  intros Hin Hk. unfold resolve. now rewrite (alias_of_child g names k Hin Hk).
Qed.

Lemma resolve_other k : ~ In k table_children -> resolve k = k.
Proof.
  intros Hnot. unfold resolve. now rewrite alias_of_other.
Qed.

Lemma resolve_unaliased k : alias_of k = [] -> resolve k = k.
Proof. unfold resolve. now intros ->. Qed.




(** ** The monad *)

Lemma bind_inv {A B} (c : M A) (k : A -> M B) s r s' :
  bind c k s = (r, s') ->
  (exists e, c s = (Raise e, s') /\ r = Raise e)
  \/ (exists a s1, c s = (Ok a, s1) /\ k a s1 = (r, s')).
Proof.
  unfold bind. destruct (c s) as [[a|e] s1]; intros Hrun.
  - right. eauto.
  - left. injection Hrun as <- <-. eauto.
Qed.

Lemma bind_ok_inv {A B} (c : M A) (k : A -> M B) s b s' :
  bind c k s = (Ok b, s') ->
  exists a s1, c s = (Ok a, s1) /\ k a s1 = (Ok b, s').
Proof.
  intros Hrun. destruct (bind_inv _ _ _ _ _ Hrun) as [[e [_ Habs]]|Hok].
  - discriminate.
  - exact Hok.
Qed.

Lemma bind_run_ok {A B} (c : M A) (k : A -> M B) s a s1 :
  c s = (Ok a, s1) -> bind c k s = k a s1.
Proof. unfold bind. now intros ->. Qed.

Lemma bind_run_raise {A B} (c : M A) (k : A -> M B) s e s1 :
  c s = (Raise e, s1) -> bind c k s = (Raise e, s1).
Proof. unfold bind. now intros ->. Qed.

Section Respects.

Variable R : state -> state -> Prop.
Hypothesis R_refl : forall s, R s s.
Hypothesis R_trans : forall a b c, R a b -> R b c -> R a c.

Lemma respects_ret {A} (a : A) : respects R (ret a).
Proof. intros s r s' [= _ <-]. apply R_refl. Qed.

Lemma respects_raise {A} (e : exn) : respects R (@raise A e).
Proof. intros s r s' [= _ <-]. apply R_refl. Qed.

Lemma respects_lift {A} (x : result A) : respects R (lift x).
Proof. intros s r s' [= _ <-]. apply R_refl. Qed.

Lemma respects_gets {A} (f : state -> A) : respects R (gets f).
Proof. intros s r s' [= _ <-]. apply R_refl. Qed.

Lemma respects_globals_item name : respects R (globals_item name).
Proof. intros s r s' [= _ <-]. apply R_refl. Qed.

Lemma respects_modify (f : state -> state) :
  (forall s, R s (f s)) -> respects R (modify f).
Proof. intros Hf s r s' [= _ <-]. apply Hf. Qed.

Lemma respects_bind {A B} (c : M A) (k : A -> M B) :
  respects R c -> (forall a, respects R (k a)) -> respects R (bind c k).
Proof.
  intros Hc Hk s r s' Hrun.
  destruct (bind_inv _ _ _ _ _ Hrun) as [[e [Hce _]]|[a [s1 [Hca Hka]]]].
  - eapply Hc; eauto.
  - eapply R_trans; [eapply Hc | eapply Hk]; eauto.
Qed.

Lemma respects_when (b : bool) (c : M unit) :
  respects R c -> respects R (when b c).
Proof. intros Hc. destruct b; simpl; [assumption | apply respects_ret]. Qed.

Lemma respects_for_each {A} (l : list A) (f : A -> M unit) :
  (forall x, In x l -> respects R (f x)) -> respects R (for_each l f).
Proof.
  induction l as [|x l IH]; intros Hf; simpl.
  - apply respects_ret.
  - apply respects_bind.
    + apply Hf. now left.
    + intros _. apply IH. intros y Hy. apply Hf. now right.
Qed.

End Respects.

(** ** Reading *)

Lemma item_of_key {V} (d : Dict.t V) k :
  In k (Dict.keys d) -> exists v, Dict.item d k = Ok v.
Proof.
  intros Hin. apply DictFacts.mem_keys in Hin. unfold Dict.mem in Hin.
  unfold Dict.item. destruct (Dict.get d k) as [v|]; [eauto | discriminate].
Qed.

(** The scan of a store that has the key returns the store's item for it. *)
Lemma scan_items_hit key p d items params :
  pattern_of key = Some p ->
  incl (Dict.keys items) (Dict.keys d) ->
  In key (Dict.keys items) ->
  scan_items key d items params = Stop (Dict.item d key).
Proof.
  intros Hp. revert params.
  induction items as [|[category v] rest IH]; intros params Hincl Hin.
  - destruct Hin.
  - simpl. rewrite Hp.
    destruct (re_match_full p category) eqn:Hfull; [reflexivity|].
    assert (In key (Dict.keys rest)) as Hrest.
    { destruct Hin as [Heq|Hin]; [|assumption].
      simpl in Heq. subst category.
      rewrite (re_match_full_self _ _ Hp) in Hfull. discriminate. }
    assert (incl (Dict.keys rest) (Dict.keys d)) as Hincl'.
    { intros x Hx. apply Hincl. now right. }
    destruct (re_search_dot p category); [|now apply IH].
    destruct (negb (String.eqb (re_sub_any p category) "")
              && negb (contains_dot (re_sub_any p category))); [|now apply IH].
    destruct (item_of_key d category) as [w Hw].
    { apply Hincl. now left. }
    rewrite Hw. now apply IH.
Qed.

(** The scan of a store where nothing answers to the key in full goes on. *)
Lemma scan_items_miss key p d items params :
  pattern_of key = Some p ->
  incl (Dict.keys items) (Dict.keys d) ->
  forallb (fun c => negb (re_match_full p c)) (Dict.keys items) = true ->
  exists params', scan_items key d items params = Continue params'.
Proof.
  intros Hp. revert params.
  induction items as [|[category v] rest IH]; intros params Hincl Hnone.
  - simpl. eauto.
  - simpl in Hnone. apply andb_prop in Hnone. destruct Hnone as [Hc Hrest].
    apply negb_true_iff in Hc. simpl. rewrite Hp, Hc.
    assert (incl (Dict.keys rest) (Dict.keys d)) as Hincl'.
    { intros x Hx. apply Hincl. now right. }
    destruct (re_search_dot p category); [|now apply IH].
    destruct (negb (String.eqb (re_sub_any p category) "")
              && negb (contains_dot (re_sub_any p category))); [|now apply IH].
    destruct (item_of_key d category) as [w Hw].
    { apply Hincl. now left. }
    rewrite Hw. now apply IH.
Qed.

(** The scan of a store where nothing answers to the key, in full or as a
    category, leaves [params] as they are. *)
Lemma scan_items_nothing key p d items params :
  pattern_of key = Some p ->
  forallb (fun c => negb (re_match_full p c) && negb (re_search_dot p c))
          (Dict.keys items) = true ->
  scan_items key d items params = Continue params.
Proof.
  intros Hp. induction items as [|[category v] rest IH]; intros Hnone.
  - reflexivity.
  - simpl in Hnone. apply andb_prop in Hnone. destruct Hnone as [Hc Hrest].
    apply andb_prop in Hc. destruct Hc as [Hfull Hdot].
    apply negb_true_iff in Hfull. apply negb_true_iff in Hdot.
    simpl. rewrite Hp, Hfull, Hdot. now apply IH.
Qed.

Lemma globals_keyed_mem s k :
  globals_keyed s ->
  Dict.mem (self_rcGlobals s) k = existsb (String.eqb k) global_names.
Proof.
  intros Hk. destruct (existsb (String.eqb k) global_names) eqn:E.
  - apply DictFacts.mem_keys. rewrite Hk. now apply existsb_eqb_In.
  - apply DictFacts.mem_false_keys. rewrite Hk. intros Hin.
    apply existsb_eqb_In in Hin. congruence.
Qed.

(** [getitem] on a key of the external store. *)
Lemma getitem_rcParams s key p v :
  key <> "" -> Dict.mem (self_rcGlobals s) key = false ->
  pattern_of key = Some p ->
  Dict.get (rcParams s) key = Some v ->
  getitem s key = Ok v.
Proof.
  intros Hne Hg Hp Hget. unfold getitem.
  apply String.eqb_neq in Hne. rewrite Hne, Hg.
  rewrite (scan_items_hit key p (rcParams s) (rcParams s) []); auto.
  - now apply DictFacts.item_get.
  - apply incl_refl.
  - apply DictFacts.mem_keys. unfold Dict.mem. now rewrite Hget.
Qed.



(** ** Writing *)

Lemma store_write_rcParams name v e s :
  Dict.mem (rcParams s) name = true ->
  store_write name v e s
  = (Ok tt, with_rcParams s (Dict.set (rcParams s) name v)).
Proof. unfold store_write. now intros ->. Qed.

Lemma store_write_rcSpecial name v e s :
  Dict.mem (rcParams s) name = false ->
  Dict.mem (self_rcSpecial s) name = true ->
  store_write name v e s
  = (Ok tt, with_rcSpecial s (Dict.set (self_rcSpecial s) name v)).
Proof. unfold store_write. now intros -> ->. Qed.

Lemma store_write_absent name v e s :
  held s name = false -> store_write name v e s = (Raise e, s).
Proof.
  unfold held, store_write. intros Hh. apply orb_false_elim in Hh.
  destruct Hh as [-> ->]. reflexivity.
Qed.

Lemma store_write_held name v e s :
  held s name = true -> exists s', store_write name v e s = (Ok tt, s').
Proof.
  unfold held. intros Hh.
  destruct (Dict.mem (rcParams s) name) eqn:Hp.
  - rewrite store_write_rcParams by assumption. eauto.
  - simpl in Hh. rewrite store_write_rcSpecial by assumption. eauto.
Qed.

(** A write reaches the store that [stored] reads. *)
Lemma store_write_stored name v e s s' :
  store_write name v e s = (Ok tt, s') -> stored s' name = Some v.
Proof.
  unfold store_write, stored.
  destruct (Dict.mem (rcParams s) name) eqn:Hp.
  - intros [= <-]. simpl. rewrite DictFacts.mem_set, String.eqb_refl. simpl.
    apply DictFacts.get_set_same.
  - destruct (Dict.mem (self_rcSpecial s) name) eqn:Hs; [|discriminate].
    intros [= <-]. simpl. rewrite Hp. apply DictFacts.get_set_same.
Qed.

(** A write leaves every other key as it is, in both stores. *)
Lemma store_write_other name v e s r s' k :
  store_write name v e s = (r, s') -> name <> k -> stored s' k = stored s k.
Proof.
  unfold store_write, stored. intros Hrun Hne.
  assert (String.eqb name k = false) as Hnk by now apply String.eqb_neq.
  destruct (Dict.mem (rcParams s) name).
  - injection Hrun as _ <-. simpl.
    rewrite DictFacts.mem_set, Hnk. simpl.
    now rewrite DictFacts.get_set_other.
  - destruct (Dict.mem (self_rcSpecial s) name).
    + injection Hrun as _ <-. simpl. now rewrite DictFacts.get_set_other.
    + now injection Hrun as _ <-.
Qed.

(** A write creates no key and removes none. *)
Lemma store_write_keys name v e s r s' :
  store_write name v e s = (r, s') ->
  Dict.keys (rcParams s') = Dict.keys (rcParams s)
  /\ Dict.keys (self_rcSpecial s') = Dict.keys (self_rcSpecial s).
Proof.
  unfold store_write.
  destruct (Dict.mem (rcParams s) name) eqn:Hp.
  - intros [= _ <-]. simpl. now rewrite DictFacts.keys_set_mem.
  - destruct (Dict.mem (self_rcSpecial s) name) eqn:Hs.
    + intros [= _ <-]. simpl. now rewrite DictFacts.keys_set_mem.
    + now intros [= _ <-].
Qed.

Lemma held_keys s s' k :
  Dict.keys (rcParams s') = Dict.keys (rcParams s) ->
  Dict.keys (self_rcSpecial s') = Dict.keys (self_rcSpecial s) ->
  held s' k = held s k.
Proof.
  intros Hp Hs. unfold held.
  assert (forall (d d' : dict), Dict.keys d' = Dict.keys d ->
                                Dict.mem d' k = Dict.mem d k) as Hmem.
  { intros d d' Hk. destruct (Dict.mem d k) eqn:E.
    - apply DictFacts.mem_keys. rewrite Hk. now apply DictFacts.mem_keys.
    - apply DictFacts.mem_false_keys. rewrite Hk. now apply DictFacts.mem_false_keys. }
  now rewrite (Hmem _ _ Hp), (Hmem _ _ Hs).
Qed.

(** Writing one value under several names: each name ends with the value. *)
Lemma for_each_write_keeps names v (e : string -> exn) s r s' c :
  for_each names (fun name => store_write name v (e name)) s = (r, s') ->
  stored s c = Some v -> stored s' c = Some v.
Proof.
  revert s. induction names as [|name names IH]; intros s; simpl.
  - now intros [= _ <-].
  - intros Hrun Hst.
    destruct (bind_inv _ _ _ _ _ Hrun) as [[e' [Hw _]]|[[] [s1 [Hw Hrest]]]].
    + destruct (string_dec name c) as [->|Hne].
      * unfold store_write in Hw.
        destruct (Dict.mem (rcParams s) c); [discriminate|].
        destruct (Dict.mem (self_rcSpecial s) c); [discriminate|].
        now injection Hw as _ <-.
      * now rewrite (store_write_other _ _ _ _ _ _ _ Hw Hne).
    + apply (IH s1 Hrest).
      destruct (string_dec name c) as [->|Hne].
      * eapply store_write_stored; eauto.
      * now rewrite (store_write_other _ _ _ _ _ _ _ Hw Hne).
Qed.

Lemma for_each_write_all names v (e : string -> exn) s s' c :
  for_each names (fun name => store_write name v (e name)) s = (Ok tt, s') ->
  In c names -> stored s' c = Some v.
Proof.
  revert s. induction names as [|name names IH]; intros s; simpl; [tauto|].
  intros Hrun Hin.
  destruct (bind_ok_inv _ _ _ _ _ Hrun) as [[] [s1 [Hw Hrest]]].
  destruct (string_dec name c) as [->|Hne].
  - eapply for_each_write_keeps; eauto. eapply store_write_stored; eauto.
  - destruct Hin as [Heq|Hin]; [contradiction|]. eapply IH; eauto.
Qed.

Lemma forallb_eq {A} (f g : A -> bool) l :
  (forall x, f x = g x) -> forallb f l = forallb g l.
Proof.
  intros Hfg. induction l as [|x l IH]; simpl; [reflexivity|].
  now rewrite Hfg, IH.
Qed.


Lemma for_each_write_other names (v : string -> value) (e : string -> exn) s r s' k :
  for_each names (fun name => store_write name (v name) (e name)) s = (r, s') ->
  ~ In k names -> stored s' k = stored s k.
Proof.
  revert s. induction names as [|name names IH]; intros s; simpl.
  - now intros [= _ <-].
  - intros Hrun Hnot.
    assert (name <> k) as Hne by tauto.
    destruct (bind_inv _ _ _ _ _ Hrun) as [[e' [Hw _]]|[[] [s1 [Hw Hrest]]]].
    + eapply store_write_other; eauto.
    + rewrite (IH s1 Hrest) by tauto. eapply store_write_other; eauto.
Qed.

Lemma for_each_write_keys {A} (l : list A) (name : A -> string)
      (v : A -> value) (e : A -> exn) s r s' :
  for_each l (fun x => store_write (name x) (v x) (e x)) s = (r, s') ->
  Dict.keys (rcParams s') = Dict.keys (rcParams s)
  /\ Dict.keys (self_rcSpecial s') = Dict.keys (self_rcSpecial s).
Proof.
  revert s. induction l as [|x l IH]; intros s; simpl.
  - now intros [= _ <-].
  - intros Hrun.
    destruct (bind_inv _ _ _ _ _ Hrun) as [[e' [Hw _]]|[[] [s1 [Hw Hrest]]]].
    + eapply store_write_keys; eauto.
    + destruct (store_write_keys _ _ _ _ _ _ Hw) as [Hp Hs].
      destruct (IH s1 Hrest) as [Hp' Hs']. split; congruence.
Qed.

Lemma store_write_frame name v e s r s' :
  store_write name v e s = (r, s') ->
  self_rcGlobals s' = self_rcGlobals s /\ self_init s' = self_init s
  /\ figures s' = figures s.
Proof.
  unfold store_write.
  destruct (Dict.mem (rcParams s) name); [now intros [= _ <-]|].
  destruct (Dict.mem (self_rcSpecial s) name); now intros [= _ <-].
Qed.

Section Writing.

Context {env : Env}.

Lemma setitem_global key val s :
  String.eqb (resolve key) "cycle" = false ->
  Dict.mem (self_rcGlobals s) (resolve key) = true ->
  setitem key val s
  = (set_global (resolve key) val ;; modify (fun s => with_init s false)) s.
Proof.
  intros Hc Hm. unfold setitem. cbn [setitem_rec]. rewrite Hc.
  unfold bind at 1. unfold bind at 1. unfold gets at 1. now rewrite Hm.
Qed.

Lemma setitem_single key val s :
  String.eqb (resolve key) "cycle" = false ->
  Dict.mem (self_rcGlobals s) (resolve key) = false ->
  is_dict val = false ->
  setitem key val s
  = (set_single (resolve key) val ;; modify (fun s => with_init s false)) s.
Proof.
  intros Hc Hm Hd. unfold setitem. cbn [setitem_rec]. rewrite Hc.
  unfold bind at 1. unfold bind at 1. unfold gets at 1. rewrite Hm.
  destruct val; try reflexivity. discriminate.
Qed.

Lemma setitem_batch key kwargs s :
  String.eqb (resolve key) "cycle" = false ->
  Dict.mem (self_rcGlobals s) (resolve key) = false ->
  setitem key (VDict kwargs) s
  = (set_batch (resolve key) kwargs ;; modify (fun s => with_init s false)) s.
Proof.
  intros Hc Hm. unfold setitem. cbn [setitem_rec]. rewrite Hc.
  unfold bind at 1. unfold bind at 1. unfold gets at 1. now rewrite Hm.
Qed.

(** The block under ['ticklen','tickratio'], run after the global has been
    assigned: both minor sizes become the product of the two globals. *)
Lemma derive_minor_size_ok key val s s' :
  key = "ticklen" \/ key = "tickratio" ->
  Dict.get (self_rcGlobals s) key = Some val ->
  derive_minor_size key val s = (Ok tt, s') ->
  exists t r p,
    Dict.get (self_rcGlobals s) "ticklen" = Some t
    /\ Dict.get (self_rcGlobals s) "tickratio" = Some r
    /\ py_mul t r = Ok p
    /\ s' = with_rcParams s
              (Dict.set (Dict.set (rcParams s) "xtick.minor.size" p)
                        "ytick.minor.size" p).
Proof.
  intros Hkey Hval. unfold derive_minor_size.
  destruct Hkey as [-> | ->]; cbn [String.eqb Ascii.eqb Bool.eqb orb when].
  - unfold bind, ret, globals_item, lift, set_rcParams, modify, Dict.item.
    destruct (Dict.get (self_rcGlobals s) "tickratio") as [r|]; [|discriminate].
    destruct (py_mul val r) as [p|] eqn:Hp; [|discriminate].
    intros [= <-]. exists val, r, p. auto.
  - unfold bind, ret, globals_item, lift, set_rcParams, modify, Dict.item.
    destruct (Dict.get (self_rcGlobals s) "ticklen") as [t|]; [|discriminate].
    destruct (py_mul t val) as [p|] eqn:Hp; [|discriminate].
    intros [= <-]. exists t, val, p. auto.
Qed.



Lemma derive_minor_width_skip key val s :
  String.eqb key "linewidth" || String.eqb key "minorwidth" = false ->
  derive_minor_width key val s = (Ok tt, s).
Proof. unfold derive_minor_width. now intros ->. Qed.

(** The four steps of a [set_global] that returns. *)
Lemma set_global_ok_inv key val s s' :
  set_global key val s = (Ok tt, s') ->
  exists s2 s3,
    derive_minor_size key val
      (with_rcGlobals s (Dict.set (self_rcGlobals s) key val)) = (Ok tt, s2)
    /\ derive_minor_width key val s2 = (Ok tt, s3)
    /\ for_each (children key)
         (fun name => store_write name val (invalid_key name)) s3 = (Ok tt, s').
Proof.
  unfold set_global. intros Hrun.
  destruct (bind_ok_inv _ _ _ _ _ Hrun) as [[] [s1 [H1 Hrun1]]].
  destruct (bind_ok_inv _ _ _ _ _ Hrun1) as [[] [s2 [H2 Hrun2]]].
  destruct (bind_ok_inv _ _ _ _ _ Hrun2) as [[] [s3 [H3 Hrun3]]].
  injection H1 as <-. eauto.
Qed.

End Writing.

(** ** What a call leaves alone *)

Section Frames.

Context {env : Env}.
Variable R : state -> state -> Prop.
Variable writable : string -> Prop.
Hypothesis R_refl : forall s, R s s.
Hypothesis R_trans : forall a b c, R a b -> R b c -> R a c.
Hypothesis R_rcParams :
  forall s name v,
    Dict.mem (rcParams s) name = true \/ In name derived_rcParams ->
    R s (with_rcParams s (Dict.set (rcParams s) name v)).
Hypothesis R_rcSpecial :
  forall s name v,
    Dict.mem (self_rcSpecial s) name = true \/ In name derived_rcSpecial ->
    R s (with_rcSpecial s (Dict.set (self_rcSpecial s) name v)).
Hypothesis R_init : forall s b, R s (with_init s b).
Hypothesis R_figures : forall s f, R s (with_figures s f).
Hypothesis R_rcGlobals :
  forall s g v, writable g -> Dict.mem (self_rcGlobals s) g = true ->
                R s (with_rcGlobals s (Dict.set (self_rcGlobals s) g v)).
Hypothesis writable_prop_cycle : writable "axes.prop_cycle".

Lemma set_rcParams_respects name v :
  In name derived_rcParams -> respects R (set_rcParams name v).
Proof. intros Hin. apply respects_modify. intros s. apply R_rcParams. now right. Qed.

Lemma set_rcSpecial_respects name v :
  In name derived_rcSpecial -> respects R (set_rcSpecial name v).
Proof. intros Hin. apply respects_modify. intros s. apply R_rcSpecial. now right. Qed.

Lemma store_write_respects name v e : respects R (store_write name v e).
Proof.
  intros s r s'. unfold store_write, set_rcParams, set_rcSpecial, modify.
  destruct (Dict.mem (rcParams s) name) eqn:Hp.
  - intros [= _ <-]. apply R_rcParams. now left.
  - destruct (Dict.mem (self_rcSpecial s) name) eqn:Hs.
    + intros [= _ <-]. apply R_rcSpecial. now left.
    + intros [= _ <-]. apply R_refl.
Qed.

Lemma derive_minor_size_respects key val : respects R (derive_minor_size key val).
Proof.
  unfold derive_minor_size. apply respects_when; auto.
  repeat (apply respects_bind; auto; intros);
    try destruct (String.eqb key "tickratio");
    auto using respects_ret, respects_globals_item, respects_lift;
    apply set_rcParams_respects; simpl; tauto.
Qed.

Lemma derive_minor_width_respects key val : respects R (derive_minor_width key val).
Proof.
  unfold derive_minor_width. apply respects_when; auto.
  repeat (apply respects_bind; auto; intros);
    try destruct (String.eqb key "linewidth");
    auto using respects_ret, respects_globals_item, respects_lift;
    first [ apply set_rcParams_respects | apply set_rcSpecial_respects ];
    simpl; tauto.
Qed.

Lemma set_global_tail_respects key val :
  respects R (derive_minor_size key val ;;
              derive_minor_width key val ;;
              for_each (children key)
                (fun name => store_write name val (invalid_key name))).
Proof.
  repeat (apply respects_bind; auto; intros);
    auto using derive_minor_size_respects, derive_minor_width_respects.
  apply respects_for_each; auto. intros. apply store_write_respects.
Qed.

Lemma set_global_respects key val s r s' :
  writable key -> Dict.mem (self_rcGlobals s) key = true ->
  set_global key val s = (r, s') -> R s s'.
Proof.
  intros Hw Hm. unfold set_global. unfold bind at 1. unfold set_rcGlobals, modify.
  intros Hrun. eapply R_trans; [apply (R_rcGlobals s key val Hw Hm)|].
  eapply set_global_tail_respects. exact Hrun.
Qed.

Lemma set_single_respects key val : respects R (set_single key val).
Proof. apply store_write_respects. Qed.

Lemma set_batch_respects key kwargs : respects R (set_batch key kwargs).
Proof.
  unfold set_batch. apply respects_for_each; auto.
  intros. apply store_write_respects.
Qed.

Lemma resolve_prop_cycle : resolve "axes.prop_cycle" = "axes.prop_cycle".
Proof. reflexivity. Qed.

Lemma setitem_rec_respects fuel key val :
  writable (resolve key) -> respects R (setitem_rec fuel key val).
Proof.
  revert key val. induction fuel as [|fuel IH]; intros key val Hw.
  - apply respects_raise; auto.
  - cbn [setitem_rec]. apply respects_bind; auto.
    2:{ intros _. apply respects_modify. intros s. apply R_init. }
    destruct (String.eqb (resolve key) "cycle").
    + assert (forall v, respects R (setitem_rec fuel "axes.prop_cycle" v)) as Hin.
      { intros v. apply IH. now rewrite resolve_prop_cycle. }
      repeat (apply respects_bind; auto; intros); auto using respects_lift.
      apply respects_modify. intros s. apply R_figures.
    + intros s r s' Hrun. unfold bind, gets in Hrun.
      destruct (Dict.mem (self_rcGlobals s) (resolve key)) eqn:Hm.
      * eapply set_global_respects; eauto.
      * destruct val; try exact (set_single_respects _ _ _ _ _ Hrun).
        exact (set_batch_respects _ _ _ _ _ Hrun).
Qed.

Lemma setitem_respects key val :
  writable (resolve key) -> respects R (setitem key val).
Proof. apply setitem_rec_respects. Qed.

End Frames.

(** ** What a call keeps *)

Lemma same_globals_keys_refl s : same_globals_keys s s.
Proof. reflexivity. Qed.

Lemma same_globals_keys_trans a b c :
  same_globals_keys a b -> same_globals_keys b c -> same_globals_keys a c.
Proof. unfold same_globals_keys. congruence. Qed.

Lemma stores_kept_refl s : stores_kept s s.
Proof. unfold stores_kept. auto. Qed.

Lemma stores_kept_trans a b c :
  stores_kept a b -> stores_kept b c -> stores_kept a c.
Proof.
  unfold stores_kept. intros [H1 [H2 [H3 H4]]] [H1' [H2' [H3' H4']]].
  repeat split; auto.
  - intros k Hk. destruct (H2' k Hk); auto.
  - intros k Hk. destruct (H4' k Hk); auto.
Qed.

Lemma stores_kept_set_rcParams s name v :
  Dict.mem (rcParams s) name = true \/ In name derived_rcParams ->
  stores_kept s (with_rcParams s (Dict.set (rcParams s) name v)).
Proof.
  intros Hname. unfold stores_kept. simpl. repeat split; auto.
  - intros k Hk. rewrite DictFacts.mem_set, Hk. apply orb_true_r.
  - intros k. rewrite DictFacts.mem_set.
    destruct (String.eqb name k) eqn:E; simpl; auto.
    apply String.eqb_eq in E. subst k. tauto.
Qed.

Lemma stores_kept_set_rcSpecial s name v :
  Dict.mem (self_rcSpecial s) name = true \/ In name derived_rcSpecial ->
  stores_kept s (with_rcSpecial s (Dict.set (self_rcSpecial s) name v)).
Proof.
  intros Hname. unfold stores_kept. simpl. repeat split; auto.
  - intros k Hk. rewrite DictFacts.mem_set, Hk. apply orb_true_r.
  - intros k. rewrite DictFacts.mem_set.
    destruct (String.eqb name k) eqn:E; simpl; auto.
    apply String.eqb_eq in E. subst k. tauto.
Qed.

Section Kept.

Context {env : Env}.

(** A call leaves the table of globals with the keys it had. *)
Lemma setitem_globals_keys key val s r s' :
  setitem key val s = (r, s') -> same_globals_keys s s'.
Proof.
  apply (setitem_respects same_globals_keys (fun _ => True)
           same_globals_keys_refl same_globals_keys_trans);
    try (intros; reflexivity); auto.
  intros s0 g v _ Hm. unfold same_globals_keys. simpl.
  now apply DictFacts.keys_set_mem.
Qed.

Lemma setitem_globals_keyed key val s r s' :
  setitem key val s = (r, s') -> globals_keyed s -> globals_keyed s'.
Proof.
  intros Hrun Hk. unfold globals_keyed.
  now rewrite (setitem_globals_keys _ _ _ _ _ Hrun).
Qed.

(** A call assigns no global but the one its key resolves to. *)
Lemma setitem_same_global g key val s r s' :
  g <> "axes.prop_cycle" -> resolve key <> g ->
  setitem key val s = (r, s') -> same_global g s s'.
Proof.
  intros Hg Hres.
  apply (setitem_respects (same_global g) (fun k => k <> g)).
  - intros s0. reflexivity.
  - unfold same_global. intros a b c. congruence.
  - intros. reflexivity.
  - intros. reflexivity.
  - intros. reflexivity.
  - intros. reflexivity.
  - intros s0 g0 v Hne _. unfold same_global. simpl.
    now apply DictFacts.get_set_other.
  - congruence.
  - assumption.
Qed.

(** A call removes no key, and adds none but the derived ones. *)
Lemma setitem_stores_kept key val s r s' :
  setitem key val s = (r, s') -> stores_kept s s'.
Proof.
  apply (setitem_respects stores_kept (fun _ => True)
           stores_kept_refl stores_kept_trans
           stores_kept_set_rcParams stores_kept_set_rcSpecial);
    auto; intros; unfold stores_kept; simpl; repeat split; auto.
Qed.

End Kept.

(** ** The tables, checked *)


Lemma global_names_ok : forallb global_ok global_names = true.
Proof. vm_compute. reflexivity. Qed.

Lemma children_keys_global :
  forallb (fun entry => existsb (String.eqb (fst entry)) global_names)
          rcGlobals_children = true.
Proof. vm_compute. reflexivity. Qed.


Lemma global_facts g :
  In g global_names ->
  ~ In g table_children /\ g <> "" /\ g <> "cycle" /\ g <> "axes.prop_cycle".
Proof.
  intros Hin.
  pose proof (proj1 (forallb_forall _ _) global_names_ok g Hin) as Hok.
  unfold global_ok in Hok.
  repeat (apply andb_prop in Hok; destruct Hok as [Hok ?]).
  repeat split.
  - apply negb_true_iff in Hok. intros Hg. apply existsb_eqb_In in Hg. congruence.
  - apply negb_true_iff in H1. now apply String.eqb_neq.
  - apply negb_true_iff in H0. now apply String.eqb_neq.
  - apply negb_true_iff in H. now apply String.eqb_neq.
Qed.

Lemma children_owner_global g names :
  In (g, names) rcGlobals_children -> In g global_names.
Proof.
  intros Hin.
  pose proof (proj1 (forallb_forall _ _) children_keys_global _ Hin) as Hok.
  now apply existsb_eqb_In in Hok.
Qed.

Lemma resolve_global g : In g global_names -> resolve g = g.
Proof. intros Hin. apply resolve_other. now apply global_facts. Qed.

Lemma globals_keyed_global s g :
  globals_keyed s -> In g global_names -> Dict.mem (self_rcGlobals s) g = true.
Proof.
  intros Hk Hin. rewrite (globals_keyed_mem s g Hk). now apply existsb_eqb_In.
Qed.


(** Reading a global returns the table's item. *)
Lemma getitem_global s g :
  globals_keyed s -> In g global_names ->
  getitem s g = Dict.item (self_rcGlobals s) g.
Proof.
  intros Hk Hin. unfold getitem.
  destruct (global_facts g Hin) as [_ [Hne _]].
  apply String.eqb_neq in Hne. rewrite Hne.
  now rewrite (globals_keyed_global s g Hk Hin).
Qed.



Section Globals.

Context {env : Env}.

(** A call on a global that returns has run the global branch. *)
Lemma setitem_global_ok_inv s g v s' :
  globals_keyed s -> In g global_names ->
  setitem g v s = (Ok tt, s') ->
  exists s1, set_global g v s = (Ok tt, s1) /\ s' = with_init s1 false.
Proof.
  intros Hk Hin Hrun.
  destruct (global_facts g Hin) as [_ [_ [Hc _]]].
  rewrite setitem_global in Hrun.
  - rewrite (resolve_global g Hin) in Hrun.
    destruct (bind_ok_inv _ _ _ _ _ Hrun) as [[] [s1 [Hset Hinit]]].
    injection Hinit as <-. eauto.
  - rewrite (resolve_global g Hin). now apply String.eqb_neq.
  - rewrite (resolve_global g Hin). now apply globals_keyed_global.
Qed.

Lemma set_global_children_stored g v s s' c :
  set_global g v s = (Ok tt, s') -> In c (children g) -> stored s' c = Some v.
Proof.
  intros Hrun Hc.
  destruct (set_global_ok_inv _ _ _ _ Hrun) as [s2 [s3 [_ [_ Hloop]]]].
  eapply (for_each_write_all (children g) v invalid_key); eauto.
Qed.

End Globals.



(** C4.  A call on a child key [k] of the global [g] is the call on [g]: the
    same outcome and the same registry, whatever the value and the state;
    so when it returns, every child of [g] holds the value, not just [k]. *)
Theorem set_child_is_set_global {env : Env} g names k v s :
  In (g, names) rcGlobals_children -> In k names ->
  setitem k v s = setitem g v s
  /\ (globals_keyed s ->
      forall s', setitem k v s = (Ok tt, s') ->
                 forall c, In c names -> stored s' c = Some v).
Proof.
  intros Hin Hk.
  pose proof (children_owner_global g names Hin) as Hg.
  assert (setitem k v s = setitem g v s) as Heq.
  { unfold setitem. cbn [setitem_rec].
    now rewrite (resolve_child g names k Hin Hk), (resolve_global g Hg). }
  split; [exact Heq|].
  intros Hkeyed s' Hrun c Hc. rewrite Heq in Hrun.
  destruct (setitem_global_ok_inv s g v s' Hkeyed Hg Hrun) as [s1 [Hset ->]].
  change (stored (with_init s1 false) c) with (stored s1 c).
  eapply set_global_children_stored; eauto.
  unfold children.
  assert (Dict.get rcGlobals_children g = Some names) as ->; [|assumption].
  clear - Hin. revert Hin. vm_compute.
  intros H. repeat (destruct H as [H|H]; [injection H as <- <-; reflexivity|]).
  destruct H.
Qed.

Lemma set_child_is_set_global_witness :
  @setitem ref_env "xtick.color" (VStr "r") fresh
  = @setitem ref_env "color" (VStr "r") fresh
  /\ stored (snd (@setitem ref_env "xtick.color" (VStr "r") fresh)) "ytick.color"
     = Some (VStr "r").
Proof.
  destruct (@set_child_is_set_global ref_env "color"
              ["axes.labelcolor"; "axes.edgecolor"; "xtick.color"; "ytick.color"]
              "xtick.color" (VStr "r") fresh) as [Heq Hall].
  - vm_compute. tauto.
  - vm_compute. tauto.
  - split; [exact Heq|]. apply Hall.
    + vm_compute. reflexivity.
    + vm_compute. reflexivity.
    + vm_compute. tauto.
Defined.

Lemma for_each_write_globals {A} (l : list A) (name : A -> string)
      (v : A -> value) (e : A -> exn) s r s' :
  for_each l (fun x => store_write (name x) (v x) (e x)) s = (r, s') ->
  self_rcGlobals s' = self_rcGlobals s.
Proof.
  revert s. induction l as [|x l IH]; intros s; simpl.
  - now intros [= _ <-].
  - intros Hrun.
    destruct (bind_inv _ _ _ _ _ Hrun) as [[e' [Hw _]]|[[] [s1 [Hw Hrest]]]].
    + now destruct (store_write_frame _ _ _ _ _ _ Hw).
    + rewrite (IH s1 Hrest). now destruct (store_write_frame _ _ _ _ _ _ Hw).
Qed.

Lemma mem_of_keys (d d' : dict) k :
  Dict.keys d' = Dict.keys d -> Dict.mem d' k = Dict.mem d k.
Proof.
  intros Hk. destruct (Dict.mem d k) eqn:E.
  - apply DictFacts.mem_keys. rewrite Hk. now apply DictFacts.mem_keys.
  - apply DictFacts.mem_false_keys. rewrite Hk. now apply DictFacts.mem_false_keys.
Qed.

(** Reading a key that the external store holds. *)
Lemma getitem_external s key v :
  globals_keyed s -> existsb (String.eqb key) global_names = false ->
  key <> "" -> pattern_of key <> None ->
  Dict.get (rcParams s) key = Some v ->
  getitem s key = Ok v.
Proof.
  intros Hk Hng Hne Hpat Hget.
  destruct (pattern_of key) as [p|] eqn:Ep; [|congruence].
  eapply getitem_rcParams; eauto.
  now rewrite (globals_keyed_mem s key Hk).
Qed.

Section Products.

Context {env : Env}.

(** What a returning call on [ticklen] or [tickratio] leaves. *)
Lemma set_tick_size s key v s' :
  globals_keyed s -> key = "ticklen" \/ key = "tickratio" ->
  setitem key v s = (Ok tt, s') ->
  exists t r p,
    self_rcGlobals s' = Dict.set (self_rcGlobals s) key v
    /\ Dict.get (self_rcGlobals s') "ticklen" = Some t
    /\ Dict.get (self_rcGlobals s') "tickratio" = Some r
    /\ py_mul t r = Ok p
    /\ Dict.get (rcParams s') "xtick.minor.size" = Some p
    /\ Dict.get (rcParams s') "ytick.minor.size" = Some p.
Proof.
  intros Hk Hkey Hrun.
  assert (In key global_names) as Hin.
  { destruct Hkey as [-> | ->]; vm_compute; tauto. }
  destruct (setitem_global_ok_inv s key v s' Hk Hin Hrun) as [s1 [Hset ->]].
  destruct (set_global_ok_inv _ _ _ _ Hset) as [s2 [s3 [Hsize [Hwidth Hloop]]]].
  destruct (derive_minor_size_ok key v
              (with_rcGlobals s (Dict.set (self_rcGlobals s) key v)) s2 Hkey
              (DictFacts.get_set_same (self_rcGlobals s) key v) Hsize)
    as [t [r [p [Ht [Hr [Hp ->]]]]]].
  rewrite derive_minor_width_skip in Hwidth
    by (destruct Hkey as [-> | ->]; reflexivity).
  injection Hwidth as <-.
  pose proof (for_each_write_globals _ _ _ _ _ _ _ Hloop) as HG.
  simpl in HG, Ht, Hr. exists t, r, p. simpl.
  rewrite HG. repeat split; auto.
  - assert (stored s1 "xtick.minor.size" = Some p) as Hst.
    { rewrite (for_each_write_other _ _ _ _ _ _ "xtick.minor.size" Hloop).
      - unfold stored. simpl. rewrite !DictFacts.mem_set. simpl.
        rewrite DictFacts.get_set_other by discriminate.
        apply DictFacts.get_set_same.
      - destruct Hkey as [-> | ->]; vm_compute; intuition discriminate. }
    unfold stored in Hst.
    destruct (for_each_write_keys _ _ _ _ _ _ _ Hloop) as [Hkeys _].
    rewrite (mem_of_keys _ _ "xtick.minor.size" Hkeys) in Hst. simpl in Hst.
    rewrite !DictFacts.mem_set in Hst. simpl in Hst. exact Hst.
  - assert (stored s1 "ytick.minor.size" = Some p) as Hst.
    { rewrite (for_each_write_other _ _ _ _ _ _ "ytick.minor.size" Hloop).
      - unfold stored. simpl. rewrite !DictFacts.mem_set. simpl.
        apply DictFacts.get_set_same.
      - destruct Hkey as [-> | ->]; vm_compute; intuition discriminate. }
    unfold stored in Hst.
    destruct (for_each_write_keys _ _ _ _ _ _ _ Hloop) as [Hkeys _].
    rewrite (mem_of_keys _ _ "ytick.minor.size" Hkeys) in Hst. simpl in Hst.
    rewrite !DictFacts.mem_set in Hst. simpl in Hst. exact Hst.
Qed.

Lemma set_tickratio_returns s t v p :
  globals_keyed s ->
  Dict.get (self_rcGlobals s) "ticklen" = Some t ->
  py_mul t v = Ok p ->
  exists s', setitem "tickratio" v s = (Ok tt, s').
Proof.
  intros Hk Ht Hp.
  rewrite setitem_global;
    [| reflexivity | apply globals_keyed_global; [assumption | vm_compute; tauto]].
  change (resolve "tickratio") with "tickratio".
  unfold set_global, derive_minor_size, derive_minor_width, set_rcGlobals,
    set_rcParams, globals_item, lift, modify, Dict.item.
  cbn [String.eqb Ascii.eqb Bool.eqb orb when for_each].
  unfold ret, bind.
  cbn [self_rcGlobals with_rcGlobals with_rcParams].
  rewrite DictFacts.get_set_other by discriminate.
  rewrite Ht, Hp.
  change (children "tickratio") with (@nil string). cbn [for_each]. unfold ret.
  eauto.
Qed.
End Products.

(** A write leaves what every other key holds, store by store. *)
Lemma store_write_other_get name v e s r s' k :
  store_write name v e s = (r, s') -> name <> k ->
  Dict.get (rcParams s') k = Dict.get (rcParams s) k
  /\ Dict.get (self_rcSpecial s') k = Dict.get (self_rcSpecial s) k.
Proof.
  unfold store_write. intros Hrun Hne.
  destruct (Dict.mem (rcParams s) name).
  - injection Hrun as _ <-. simpl. now rewrite DictFacts.get_set_other.
  - destruct (Dict.mem (self_rcSpecial s) name).
    + injection Hrun as _ <-. simpl. now rewrite DictFacts.get_set_other.
    + now injection Hrun as _ <-.
Qed.


Section Widths.

Context {env : Env}.


End Widths.

(** C2.  A call [rc['ticklen'] = v] or [rc['tickratio'] = v] that returns
    leaves [xtick.minor.size] and [ytick.minor.size] reading the product of
    the ticklen and tickratio globals as they are after the call, the one just
    set reading [v].  In particular, from ticklen 4.0 and tickratio 0.5 (whose
    product is 2.0), [rc['tickratio'] = 0.25] returns and leaves both minor
    sizes reading 1.0 and ticklen reading 4.0. *)
Theorem set_tick_size_product {env : Env} :
  (forall s key v s',
      globals_keyed s -> key = "ticklen" \/ key = "tickratio" ->
      setitem key v s = (Ok tt, s') ->
      exists t r p,
        getitem s' "ticklen" = Ok t /\ getitem s' "tickratio" = Ok r
        /\ getitem s' key = Ok v
        /\ py_mul t r = Ok p
        /\ getitem s' "xtick.minor.size" = Ok p
        /\ getitem s' "ytick.minor.size" = Ok p)
  /\ (forall s,
         globals_keyed s ->
         getitem s "ticklen" = Ok (VFloat 4) ->
         getitem s "tickratio" = Ok (VFloat 0.5) ->
         py_mul (VFloat 4) (VFloat 0.5) = Ok (VFloat 2)
         /\ exists s',
             setitem "tickratio" (VFloat 0.25) s = (Ok tt, s')
             /\ getitem s' "xtick.minor.size" = Ok (VFloat 1)
             /\ getitem s' "ytick.minor.size" = Ok (VFloat 1)
             /\ getitem s' "ticklen" = Ok (VFloat 4)).
Proof.
  assert (forall s key v s',
             globals_keyed s -> key = "ticklen" \/ key = "tickratio" ->
             setitem key v s = (Ok tt, s') ->
             exists t r p,
               self_rcGlobals s' = Dict.set (self_rcGlobals s) key v
               /\ getitem s' "ticklen" = Ok t /\ getitem s' "tickratio" = Ok r
               /\ getitem s' key = Ok v
               /\ py_mul t r = Ok p
               /\ getitem s' "xtick.minor.size" = Ok p
               /\ getitem s' "ytick.minor.size" = Ok p) as Hgen.
  { intros s key v s' Hk Hkey Hrun.
    pose proof (setitem_globals_keyed _ _ _ _ _ Hrun Hk) as Hk'.
    destruct (set_tick_size s key v s' Hk Hkey Hrun)
      as [t [r [p [HG [Ht [Hr [Hp [Hx Hy]]]]]]]].
    exists t, r, p. repeat split; auto.
    - rewrite getitem_global by (auto; vm_compute; tauto).
      now apply DictFacts.item_get.
    - rewrite getitem_global by (auto; vm_compute; tauto).
      now apply DictFacts.item_get.
    - rewrite getitem_global
        by (auto; destruct Hkey as [-> | ->]; vm_compute; tauto).
      apply DictFacts.item_get. rewrite HG. apply DictFacts.get_set_same.
    - apply getitem_external; auto; discriminate.
    - apply getitem_external; auto; discriminate. }
  split.
  - intros s key v s' Hk Hkey Hrun.
    destruct (Hgen s key v s' Hk Hkey Hrun) as [t [r [p [_ H]]]]. eauto.
  - intros s Hk Hlen Hratio. split; [now rewrite py_mul_float|].
    rewrite getitem_global in Hlen by (auto; vm_compute; tauto).
    unfold Dict.item in Hlen.
    destruct (Dict.get (self_rcGlobals s) "ticklen") as [t|] eqn:Ht;
      [|discriminate].
    injection Hlen as ->.
    destruct (set_tickratio_returns s (VFloat 4) (VFloat 0.25) (VFloat 1) Hk Ht)
      as [s' Hrun]; [now rewrite py_mul_float|].
    exists s'. split; [exact Hrun|].
    destruct (Hgen s "tickratio" (VFloat 0.25) s' Hk (or_intror eq_refl) Hrun)
      as [t [r [p [HG [Ht' [Hr [_ [Hp [Hx Hy]]]]]]]]].
    pose proof (setitem_globals_keyed _ _ _ _ _ Hrun Hk) as Hk'.
    rewrite (getitem_global s' "ticklen") in Ht' |- *
      by (auto; vm_compute; tauto).
    rewrite (getitem_global s' "tickratio") in Hr by (auto; vm_compute; tauto).
    rewrite HG in Ht', Hr |- *. unfold Dict.item in Ht', Hr |- *.
    rewrite DictFacts.get_set_other in Ht' |- * by discriminate.
    rewrite DictFacts.get_set_same in Hr. rewrite Ht in Ht' |- *.
    injection Ht' as <-. injection Hr as <-.
    rewrite py_mul_float in Hp. injection Hp as <-.
    auto.
Qed.

Lemma set_tick_size_product_witness :
  exists s',
    @setitem ref_env "tickratio" (VFloat 0.25) fresh = (Ok tt, s')
    /\ getitem s' "xtick.minor.size" = Ok (VFloat 1)
    /\ getitem s' "ytick.minor.size" = Ok (VFloat 1)
    /\ getitem s' "ticklen" = Ok (VFloat 4).
Proof.
  apply (proj2 (@set_tick_size_product ref_env) fresh).
  - vm_compute. reflexivity.
  - vm_compute. reflexivity.
  - vm_compute. reflexivity.
Defined.



(** ** Single keys and batches *)


Lemma string_app_inv_head (s a b : string) : s ++ a = s ++ b -> a = b.
Proof.
  induction s as [|c s IH]; simpl; [auto|]. intros [= H]. auto.
Qed.

Lemma for_each_app {A} (l1 l2 : list A) (f : A -> M unit) s :
  for_each (l1 ++ l2) f s = (for_each l1 f ;; for_each l2 f) s.
Proof.
  revert s. induction l1 as [|x l1 IH]; intros s; simpl.
  - reflexivity.
  - unfold bind in *. destruct (f x s) as [[[]|e] s1]; [|reflexivity].
    apply IH.
Qed.

(** Writes under names that differ from [k] leave what [k] holds. *)
Lemma for_each_write_far {A} (l : list A) (name : A -> string)
      (v : A -> value) (e : A -> exn) s r s' k :
  for_each l (fun x => store_write (name x) (v x) (e x)) s = (r, s') ->
  ~ In k (map name l) -> stored s' k = stored s k.
Proof.
  revert s. induction l as [|x l IH]; intros s; simpl.
  - now intros [= _ <-].
  - intros Hrun Hnot.
    assert (name x <> k) as Hne by tauto.
    destruct (bind_inv _ _ _ _ _ Hrun) as [[e' [Hw _]]|[[] [s1 [Hw Hrest]]]].
    + eapply store_write_other; eauto.
    + rewrite (IH s1 Hrest) by tauto. eapply store_write_other; eauto.
Qed.

(** A batch whose composed keys all exist writes every entry. *)
Lemma for_each_batch_all key (kwargs : dict) s :
  NoDup (Dict.keys kwargs) ->
  forallb (held s) (composed key kwargs) = true ->
  exists s',
    for_each kwargs
      (fun kv => store_write (key ++ "." ++ fst kv) (snd kv)
                   (invalid_key_for (key ++ "." ++ fst kv) key)) s = (Ok tt, s')
    /\ Dict.keys (rcParams s') = Dict.keys (rcParams s)
    /\ Dict.keys (self_rcSpecial s') = Dict.keys (self_rcSpecial s)
    /\ forall sub v, In (sub, v) kwargs -> stored s' (key ++ "." ++ sub) = Some v.
Proof.
  revert s. induction kwargs as [|[sub0 v0] kwargs IH]; intros s Hnd Hall.
  - exists s. simpl. unfold ret. repeat split; auto. intros sub v [].
  - simpl in Hall. apply andb_prop in Hall. destruct Hall as [H0 Hrest].
    inversion Hnd as [|? ? Hnotin Hnd']. subst.
    destruct (store_write_held (key ++ "." ++ sub0) v0
                (invalid_key_for (key ++ "." ++ sub0) key) s H0) as [s1 Hw].
    destruct (store_write_keys _ _ _ _ _ _ Hw) as [Hp Hs].
    destruct (IH s1 Hnd') as [s' [Hrun [Hp' [Hs' Hst]]]].
    { rewrite <- Hrest. apply forallb_eq. intros k. now apply held_keys. }
    exists s'. cbn [for_each fst snd]. rewrite (bind_run_ok _ _ _ _ _ Hw).
    split; [exact Hrun|]. split; [congruence|]. split; [congruence|].
    intros sub v [Heq|Hin].
    + injection Heq as <- <-.
      rewrite (for_each_write_far kwargs (fun kv => key ++ "." ++ fst kv)
                 snd (fun kv => invalid_key_for (key ++ "." ++ fst kv) key)
                 s1 (Ok tt) s' (key ++ "." ++ sub0) Hrun).
      * eapply store_write_stored; eauto.
      * intros Hin. apply in_map_iff in Hin. destruct Hin as [[sub1 v1] [Heq Hin]].
        simpl in Heq. apply string_app_inv_head in Heq.
        injection Heq as ->. apply Hnotin.
        change sub0 with (fst (sub0, v1)). now apply in_map.
    + now apply Hst.
Qed.

Section Concrete.

Context {env : Env}.


(** C8.  On a key that is not aliased, not ['cycle'] and no global, a mapping
    value is applied entry by entry, each as a write to the composed key
    [key.sub] in the store [stored] reads (the external store if the key is
    there, else the special store).  When the composed keys of the entries
    [pre] exist and that of the next entry exists in neither store, the call
    raises the branch's [ValueError] in the state that writing [pre] gives:
    every earlier entry is stored, nothing is rolled back. *)
Theorem set_batch_keeps_earlier_writes s key pre sub v post :
  alias_of key = [] -> key <> "cycle" ->
  Dict.mem (self_rcGlobals s) key = false ->
  NoDup (Dict.keys pre) ->
  forallb (held s) (composed key pre) = true ->
  held s (key ++ "." ++ sub) = false ->
  exists s',
    setitem key (VDict (pre ++ (sub, v) :: post)) s
    = (Raise (invalid_key_for (key ++ "." ++ sub) key), s')
    /\ set_batch key pre s = (Ok tt, s')
    /\ forall sub' v', In (sub', v') pre ->
                       stored s' (key ++ "." ++ sub') = Some v'.
Proof.
  intros Hal Hc Hm Hnd Hall Hmiss.
  pose proof (resolve_unaliased key Hal) as Hres.
  destruct (for_each_batch_all key pre s Hnd Hall) as [s' [Hrun [Hp [Hs Hst]]]].
  exists s'. split; [|split; [exact Hrun | exact Hst]].
  rewrite setitem_batch; rewrite ?Hres; auto.
  - unfold set_batch. unfold bind at 1. rewrite for_each_app.
    rewrite (bind_run_ok _ _ _ _ _ Hrun). cbn [for_each fst snd].
    assert (held s' (key ++ "." ++ sub) = false) as Hmiss'.
    { now rewrite (held_keys s s' _ Hp Hs). }
    now rewrite (bind_run_raise _ _ _ _ _
                   (store_write_absent _ v (invalid_key_for (key ++ "." ++ sub) key)
                      _ Hmiss')).
  - now apply String.eqb_neq.
Qed.

End Concrete.


Lemma set_batch_keeps_earlier_writes_witness :
  exists s',
    @setitem ref_env "xtick"
      (VDict [("labelsize", VInt 7); ("nokey", VInt 1); ("direction", VStr "in")])
      fresh
    = (Raise (invalid_key_for "xtick.nokey" "xtick"), s')
    /\ stored s' "xtick.labelsize" = Some (VInt 7).
Proof.
  destruct (@set_batch_keeps_earlier_writes ref_env fresh "xtick"
              [("labelsize", VInt 7)] "nokey" (VInt 1)
              [("direction", VStr "in")])
    as [s' [Hrun [_ Hst]]].
  - vm_compute. reflexivity.
  - discriminate.
  - vm_compute. reflexivity.
  - repeat constructor. simpl. tauto.
  - vm_compute. reflexivity.
  - vm_compute. reflexivity.
  - exists s'. split; [exact Hrun|]. apply Hst. now left.
Defined.

(** ** Lookup errors of the scan *)

(** In a store without the key, the scan stops with a [KeyError] at the first
    key that answers to the pattern in full. *)
Lemma scan_items_absent key p d items params :
  pattern_of key = Some p ->
  Dict.mem d key = false ->
  incl (Dict.keys items) (Dict.keys d) ->
  existsb (re_match_full p) (Dict.keys items) = true ->
  scan_items key d items params = Stop (Raise (KeyError key)).
Proof.
  intros Hp Hm. revert params.
  induction items as [|[category v] rest IH]; intros params Hincl Hex.
  - discriminate.
  - simpl in Hex |- *. rewrite Hp.
    destruct (re_match_full p category) eqn:Hfull.
    + now rewrite DictFacts.item_absent.
    + simpl in Hex.
      assert (incl (Dict.keys rest) (Dict.keys d)) as Hincl'.
      { intros x Hx. apply Hincl. now right. }
      destruct (re_search_dot p category); [|now apply IH].
      destruct (negb (String.eqb (re_sub_any p category) "")
                && negb (contains_dot (re_sub_any p category))); [|now apply IH].
      destruct (item_of_key d category) as [w Hw].
      { apply Hincl. now left. }
      rewrite Hw. now apply IH.
Qed.

Lemma existsb_forallb_negb {A} (f : A -> bool) l :
  existsb f l = false -> forallb (fun x => negb (f x)) l = true.
Proof.
  induction l as [|x l IH]; simpl; [reflexivity|].
  intros Hex. apply orb_false_elim in Hex. destruct Hex as [-> Hl].
  simpl. auto.
Qed.

(** C10.  [rc[key]] reads [key] as a pattern whose dots stand for any
    character, and at a key of a store that answers to the pattern it indexes
    that store with [key] itself: when [key] (not empty, no global) is in
    neither store while some key [c] of a store answers to it, the call ends
    with the [KeyError] of a missing dictionary key, which is not the
    [ValueError] of an unknown key. *)
Theorem getitem_pattern_key_error s key c :
  key <> "" -> Dict.mem (self_rcGlobals s) key = false ->
  held s key = false ->
  In c (Dict.keys (rcParams s) ++ Dict.keys (self_rcSpecial s))%list ->
  matches_key key c = true ->
  c <> key
  /\ getitem s key = Raise (KeyError key)
  /\ getitem s key <> Raise (invalid_key key).
Proof.
  intros Hne Hg Hheld Hc Hmatch.
  unfold held in Hheld. apply orb_false_elim in Hheld.
  destruct Hheld as [Hp Hs].
  assert (c <> key) as Hck.
  { intros ->. apply in_app_or in Hc.
    destruct Hc as [Hc|Hc]; apply DictFacts.mem_keys in Hc; congruence. }
  assert (getitem s key = Raise (KeyError key)) as Hget.
  { unfold matches_key in Hmatch.
    destruct (pattern_of key) as [p|] eqn:Epat; [|discriminate].
    unfold getitem. apply String.eqb_neq in Hne. rewrite Hne, Hg.
    destruct (existsb (re_match_full p) (Dict.keys (rcParams s))) eqn:Hex.
    - now rewrite (scan_items_absent key p (rcParams s) (rcParams s) []
                     Epat Hp (incl_refl _) Hex).
    - destruct (scan_items_miss key p (rcParams s) (rcParams s) [] Epat
                  (incl_refl _) (existsb_forallb_negb _ _ Hex)) as [params ->].
      rewrite (scan_items_absent key p (self_rcSpecial s) (self_rcSpecial s)
                 params Epat Hs (incl_refl _)); [reflexivity|].
      apply in_app_or in Hc. destruct Hc as [Hc|Hc].
      + assert (existsb (re_match_full p) (Dict.keys (rcParams s)) = true).
        { apply existsb_exists. eauto. }
        congruence.
      + apply existsb_exists. eauto. }
  repeat split; auto. rewrite Hget. discriminate.
Qed.

Lemma getitem_pattern_key_error_witness :
  "abc.weight" <> "abc.weigh."
  /\ getitem fresh "abc.weigh." = Raise (KeyError "abc.weigh.")
  /\ getitem fresh "abc.weigh." <> Raise (invalid_key "abc.weigh.").
Proof.
  apply (getitem_pattern_key_error fresh "abc.weigh." "abc.weight").
  - discriminate.
  - vm_compute. reflexivity.
  - vm_compute. reflexivity.
  - vm_compute. tauto.
  - vm_compute. reflexivity.
Defined.

(** ** Unknown keys *)

(** C7, at the input where the code leaves the claim: on the registry as
    constructed, ['abc.weigh.'] is not empty, no global, a key of neither
    store and a prefix of no key of either store, and [rc['abc.weigh.']]
    raises [KeyError], not the [ValueError] of an unknown key. *)
Lemma getitem_unknown_key_raises_key_error :
  existsb (String.eqb "abc.weigh.") global_names = false
  /\ held fresh "abc.weigh." = false
  /\ forallb (fun c => negb (String.prefix "abc.weigh.." c))
             (Dict.keys (merged fresh)) = true
  /\ getitem fresh "abc.weigh." = Raise (KeyError "abc.weigh.").
Proof. vm_compute. auto. Qed.

(** Reading a key that answers to nothing: the [ValueError] of an unknown
    key.  The key is not empty, no global, and no key of either store answers
    to it in full or as a category. *)
Lemma getitem_unknown_key s key p :
  key <> "" -> Dict.mem (self_rcGlobals s) key = false ->
  pattern_of key = Some p ->
  forallb (fun c => negb (re_match_full p c) && negb (re_search_dot p c))
          (Dict.keys (rcParams s) ++ Dict.keys (self_rcSpecial s))%list = true ->
  getitem s key = Raise (invalid_key key).
Proof.
  intros Hne Hg Hp Hnone. rewrite forallb_app in Hnone.
  apply andb_prop in Hnone. destruct Hnone as [Hrc Hsp].
  unfold getitem. apply String.eqb_neq in Hne. rewrite Hne, Hg.
  rewrite (scan_items_nothing key p (rcParams s) (rcParams s) [] Hp Hrc).
  now rewrite (scan_items_nothing key p (self_rcSpecial s) (self_rcSpecial s)
                 [] Hp Hsp).
Qed.

Lemma getitem_unknown_key_witness :
  getitem fresh "not.a.real.key" = Raise (invalid_key "not.a.real.key").
Proof.
  destruct (pattern_of "not.a.real.key") as [p|] eqn:Hp;
    [|vm_compute in Hp; discriminate].
  apply (getitem_unknown_key fresh "not.a.real.key" p).
  - discriminate.
  - vm_compute. reflexivity.
  - exact Hp.
  - vm_compute in Hp. injection Hp as <-. vm_compute. reflexivity.
Defined.

Section UnknownKey.

Context {env : Env}.

(** Writing a value that is no mapping under a key that is not aliased, not
    ['cycle'], no global and in neither store: the [ValueError] of an unknown
    key, and the registry is as it was. *)
Lemma setitem_unknown_key s key v :
  alias_of key = [] -> key <> "cycle" ->
  Dict.mem (self_rcGlobals s) key = false ->
  is_dict v = false -> held s key = false ->
  setitem key v s = (Raise (invalid_key key), s).
Proof.
  intros Hal Hc Hg Hd Hheld.
  pose proof (resolve_unaliased key Hal) as Hres.
  rewrite setitem_single; rewrite ?Hres; auto.
  - unfold set_single.
    now rewrite (bind_run_raise _ _ _ _ _
                   (store_write_absent key v (invalid_key key) s Hheld)).
  - now apply String.eqb_neq.
Qed.

End UnknownKey.

Lemma setitem_unknown_key_witness :
  @setitem ref_env "also.fake" (VInt 1) fresh
  = (Raise (invalid_key "also.fake"), fresh).
Proof.
  apply (@setitem_unknown_key ref_env fresh "also.fake" (VInt 1)).
  - vm_compute. reflexivity.
  - discriminate.
  - vm_compute. reflexivity.
  - reflexivity.
  - vm_compute. reflexivity.
Defined.

(** ** Scopes *)





Section Replay.

Context {env : Env}.

(** The table of globals after the global branch, however it ends. *)
Lemma set_global_globals key val s r s' :
  set_global key val s = (r, s') ->
  self_rcGlobals s' = Dict.set (self_rcGlobals s) key val.
Proof.
  unfold set_global. unfold bind at 1. unfold set_rcGlobals, modify.
  intros Hrun.
  apply (set_global_tail_respects
           (fun a b => self_rcGlobals b = self_rcGlobals a)) in Hrun; auto.
  intros a b c Hab Hbc. congruence.
Qed.






End Replay.




Section Scopes.

Context {env : Env}.



End Scopes.








(** ** The model itself *)

(** [fresh] is where [rc_configurator()] arrives, without an exception, and
    [unlinked] where the batch write on it arrives. *)
Lemma fresh_constructed :
  @rc_init ref_env sample_style blank = (Ok tt, fresh).
Proof. vm_compute. reflexivity. Qed.

Lemma unlinked_written :
  @setitem ref_env "ytick" (VDict [("major.size", VFloat 7)]) fresh
  = (Ok tt, unlinked).
Proof. vm_compute. reflexivity. Qed.

Section Fuel.

Context {env : Env}.

(** The nesting of [__setitem__] stops at the assignment of
    ['axes.prop_cycle']: more fuel than [setitem] has changes nothing, so the
    [Unmodelled] of exhausted fuel is never the outcome of [setitem]. *)
Lemma setitem_rec_prop_cycle n v :
  setitem_rec (S n) "axes.prop_cycle" v = setitem_rec 1 "axes.prop_cycle" v.
Proof. reflexivity. Qed.


End Fuel.

Section Returns.

Context {env : Env}.



End Returns.

(** A scope without overrides: no snapshot is taken, and the statement is
    its body. *)
Lemma empty_scope_is_body {env : Env} {A : Type} ax (body : M A) s :
  rc_context_init ax [] [] s = (Ok NoChange, s)
  /\ with_context NoChange body s = body s.
Proof.
  split; [reflexivity|].
  unfold with_context. simpl. unfold ret. now destruct (body s).
Qed.

(** A positional argument that is no dictionary: the [ValueError] of
    [rc_context.__init__], and no context. *)
Lemma scope_rejects_non_mapping ax v args kwargs s :
  is_dict v = false ->
  rc_context_init ax (v :: args) kwargs s
  = (Raise (ValueError "rc_context() only accepts dictionary args and kwarg pairs."),
     s).
Proof.
  intros Hd. unfold rc_context_init, bind, lift.
  destruct v; try reflexivity. discriminate.
Qed.


(** * Further properties *)

(** ** Globals *)

Section GlobalWrites.

Context {env : Env}.

(** A write to a global, or to a child key of it, assigns the global before
    anything can fail: however the call ends, [rc[g]] then returns the value.
    A call that raises (a product that is not defined, a child key that is in
    neither store) has changed the global all the same. *)
Theorem set_global_assigns_before_it_can_fail s k g v r s' :
  globals_keyed s -> In g global_names -> resolve k = g ->
  setitem k v s = (r, s') ->
  getitem s' g = Ok v.
Proof.
  intros Hk Hg Hres Hrun.
  pose proof (setitem_globals_keyed _ _ _ _ _ Hrun Hk) as Hk'.
  destruct (global_facts g Hg) as [_ [_ [Hc _]]].
  rewrite setitem_global in Hrun.
  - rewrite Hres in Hrun.
    rewrite getitem_global by assumption. apply DictFacts.item_get.
    destruct (bind_inv _ _ _ _ _ Hrun) as [[e [Hset _]]|[[] [s1 [Hset Hinit]]]].
    + rewrite (set_global_globals _ _ _ _ _ Hset). apply DictFacts.get_set_same.
    + injection Hinit as _ <-. simpl.
      rewrite (set_global_globals _ _ _ _ _ Hset). apply DictFacts.get_set_same.
  - rewrite Hres. now apply String.eqb_neq.
  - rewrite Hres. now apply globals_keyed_global.
Qed.

(** No call removes a key from the external store, from the special store or
    from the table of globals, however it ends; the only keys a call can add
    are the five derived ones, and the table of globals gains none. *)
Theorem setitem_keeps_key_sets key val s r s' :
  setitem key val s = (r, s') ->
  stores_kept s s' /\ same_globals_keys s s'.
Proof.
  intros Hrun. split.
  - eapply setitem_stores_kept; eauto.
  - eapply setitem_globals_keys; eauto.
Qed.

End GlobalWrites.

Lemma set_global_assigns_before_it_can_fail_witness :
  exists e s',
    @setitem ref_env "xtick.major.size" (VStr "long") fresh = (Raise e, s')
    /\ getitem s' "ticklen" = Ok (VStr "long").
Proof.
  exists (TypeError "can't multiply by non-int of type 'float'").
  exists (snd (@setitem ref_env "xtick.major.size" (VStr "long") fresh)).
  split; [vm_compute; reflexivity|].
  apply (@set_global_assigns_before_it_can_fail ref_env fresh "xtick.major.size"
           "ticklen" (VStr "long")
           (Raise (TypeError "can't multiply by non-int of type 'float'"))).
  - vm_compute. reflexivity.
  - vm_compute. tauto.
  - vm_compute. reflexivity.
  - vm_compute. reflexivity.
Defined.

Lemma setitem_keeps_key_sets_witness :
  stores_kept fresh (snd (@setitem ref_env "ticklen" (VInt 10) fresh))
  /\ same_globals_keys fresh (snd (@setitem ref_env "ticklen" (VInt 10) fresh)).
Proof.
  apply (@setitem_keeps_key_sets ref_env "ticklen" (VInt 10) fresh (Ok tt)).
  vm_compute. reflexivity.
Defined.

(** ** The colour cycle *)

Section Cycle.

Context {env : Env}.

(** The nested assignment of ['axes.prop_cycle']: a single write. *)
Lemma setitem_rec_prop_cycle_write n c s :
  globals_keyed s ->
  setitem_rec (S n) "axes.prop_cycle" (VCycler "color" c) s
  = (store_write "axes.prop_cycle" (VCycler "color" c)
       (invalid_key "axes.prop_cycle") ;;
     modify (fun s => with_init s false)) s.
Proof.
  intros Hk. cbn [setitem_rec]. rewrite resolve_prop_cycle.
  cbn [String.eqb Ascii.eqb Bool.eqb].
  unfold bind at 1. unfold bind at 1. unfold gets at 1.
  rewrite (globals_keyed_mem s _ Hk).
  reflexivity.
Qed.

Lemma store_write_globals_keyed name v e s r s' :
  store_write name v e s = (r, s') -> globals_keyed s -> globals_keyed s'.
Proof.
  intros Hw Hk. unfold globals_keyed.
  destruct (store_write_frame _ _ _ _ _ _ Hw) as [-> _]. exact Hk.
Qed.

(** The object [rc['cycle'] = v] hands to [colortools.colors]. *)
Lemma cycle_unfold v s :
  setitem "cycle" v s
  = ((colors <- lift (colortools_colors (VTuple [VStr "colorblind"])) ;;
      setitem_rec 1 "axes.prop_cycle" (VCycler "color" colors) ;;
      colors <- lift (colortools_colors
                        (if is_str v || isnumber v then VTuple [v] else v)) ;;
      setitem_rec 1 "axes.prop_cycle" (VCycler "color" colors) ;;
      set_prop_cycles (VCycler "color" colors)) ;;
     modify (fun s => with_init s false)) s.
Proof. reflexivity. Qed.

(** The baseline palette goes in first. *)
Lemma set_cycle_baseline s base :
  globals_keyed s -> held s "axes.prop_cycle" = true ->
  exists s1,
    setitem_rec 1 "axes.prop_cycle" (VCycler "color" base) s = (Ok tt, s1)
    /\ globals_keyed s1 /\ held s1 "axes.prop_cycle" = true
    /\ stored s1 "axes.prop_cycle" = Some (VCycler "color" base)
    /\ figures s1 = figures s /\ self_rcGlobals s1 = self_rcGlobals s
    /\ self_init s1 = false.
Proof.
  intros Hk Hheld.
  destruct (store_write_held "axes.prop_cycle" (VCycler "color" base)
              (invalid_key "axes.prop_cycle") s Hheld) as [s1 Hw1].
  destruct (store_write_keys _ _ _ _ _ _ Hw1) as [Hp1 Hs1].
  destruct (store_write_frame _ _ _ _ _ _ Hw1) as [HG1 [_ HF1]].
  pose proof (store_write_stored _ _ _ _ _ Hw1) as Hst1.
  exists (with_init s1 false). split.
  { rewrite setitem_rec_prop_cycle_write by assumption.
    now rewrite (bind_run_ok _ _ _ _ _ Hw1). }
  split. { unfold globals_keyed. simpl. now rewrite HG1. }
  split. { change (held (with_init s1 false) "axes.prop_cycle")
             with (held s1 "axes.prop_cycle").
           now rewrite (held_keys s s1 _ Hp1 Hs1). }
  simpl. repeat split; auto.
Qed.

(** The whole of [rc['cycle'] = v] when both palettes resolve. *)
Lemma set_cycle_run s v base colors :
  globals_keyed s -> held s "axes.prop_cycle" = true ->
  colortools_colors (VTuple [VStr "colorblind"]) = Ok base ->
  colortools_colors (if is_str v || isnumber v then VTuple [v] else v)
  = Ok colors ->
  exists s',
    setitem "cycle" v s = (Ok tt, s')
    /\ stored s' "axes.prop_cycle" = Some (VCycler "color" colors)
    /\ figures s' = map (map (fun _ => VCycler "color" colors)) (figures s)
    /\ self_rcGlobals s' = self_rcGlobals s
    /\ self_init s' = false.
Proof.
  intros Hk Hheld Hbase Hcolors.
  destruct (set_cycle_baseline s base Hk Hheld)
    as [s1 [Hin1 [Hk1 [Hheld1 [_ [HF1 [HG1 _]]]]]]].
  destruct (set_cycle_baseline s1 colors Hk1 Hheld1)
    as [s2 [Hin2 [_ [_ [Hst2 [HF2 [HG2 _]]]]]]].
  exists (with_init
            (with_figures s2
               (map (map (fun _ => VCycler "color" colors)) (figures s2)))
            false).
  split.
  - rewrite cycle_unfold. unfold bind at 1. unfold bind at 1. unfold lift at 1.
    rewrite Hbase. unfold bind at 1. rewrite Hin1.
    unfold bind at 1. unfold lift at 1. rewrite Hcolors.
    unfold bind at 1. rewrite Hin2. reflexivity.
  - simpl. repeat split.
    + exact Hst2.
    + now rewrite HF2, HF1.
    + now rewrite HG2.
Qed.

(** [rc['cycle'] = v] first installs the baseline palette and then the
    colours resolved from [v] (a string or a number is wrapped in a tuple).
    When both resolutions succeed and ['axes.prop_cycle'] exists, the call
    returns, ['axes.prop_cycle'] holds the cycler of the resolved colours,
    every axes of every open figure has it, and no global has changed.  When
    the resolution of [v] fails, the call raises that error after the
    baseline palette has been installed, and no axes has been touched. *)
Theorem set_cycle_resets_then_applies s v base :
  globals_keyed s -> held s "axes.prop_cycle" = true ->
  colortools_colors (VTuple [VStr "colorblind"]) = Ok base ->
  (forall colors,
      colortools_colors (if is_str v || isnumber v then VTuple [v] else v)
      = Ok colors ->
      exists s',
        setitem "cycle" v s = (Ok tt, s')
        /\ stored s' "axes.prop_cycle" = Some (VCycler "color" colors)
        /\ figures s' = map (map (fun _ => VCycler "color" colors)) (figures s)
        /\ self_rcGlobals s' = self_rcGlobals s
        /\ self_init s' = false)
  /\ (forall e,
         colortools_colors (if is_str v || isnumber v then VTuple [v] else v)
         = Raise e ->
         exists s',
           setitem "cycle" v s = (Raise e, s')
           /\ stored s' "axes.prop_cycle" = Some (VCycler "color" base)
           /\ figures s' = figures s
           /\ self_rcGlobals s' = self_rcGlobals s).
Proof.
  intros Hk Hheld Hbase. split.
  - intros colors Hcolors. now apply (set_cycle_run s v base colors).
  - intros e Hcolors.
    destruct (set_cycle_baseline s base Hk Hheld)
      as [s1 [Hin1 [_ [_ [Hst1 [HF1 [HG1 _]]]]]]].
    exists s1. split.
    + rewrite cycle_unfold. unfold bind at 1. unfold bind at 1. unfold lift at 1.
      rewrite Hbase. unfold bind at 1. rewrite Hin1.
      unfold bind at 1. unfold lift at 1. rewrite Hcolors. reflexivity.
    + repeat split; auto.
Qed.

(** Without ['axes.prop_cycle'] in either store, [rc['cycle'] = v] raises
    the [ValueError] of an unknown key for ['axes.prop_cycle'] and changes
    nothing. *)
Theorem set_cycle_needs_prop_cycle s v base :
  globals_keyed s -> held s "axes.prop_cycle" = false ->
  colortools_colors (VTuple [VStr "colorblind"]) = Ok base ->
  setitem "cycle" v s = (Raise (invalid_key "axes.prop_cycle"), s).
Proof.
  intros Hk Hheld Hbase.
  rewrite cycle_unfold. unfold bind at 1. unfold bind at 1. unfold lift at 1.
  rewrite Hbase. unfold bind at 1.
  rewrite setitem_rec_prop_cycle_write by assumption.
  now rewrite (bind_run_raise _ _ _ _ _
                 (store_write_absent _ (VCycler "color" base)
                    (invalid_key "axes.prop_cycle") _ Hheld)).
Qed.

End Cycle.

Lemma set_cycle_resets_then_applies_witness :
  exists s',
    @setitem ref_env "cycle" (VStr "colorblind") fresh = (Ok tt, s')
    /\ stored s' "axes.prop_cycle"
       = Some (VCycler "color" (VTuple [VStr "colorblind"])).
Proof.
  destruct (@set_cycle_resets_then_applies ref_env fresh (VStr "colorblind")
              (VTuple [VStr "colorblind"])) as [Hok _].
  - vm_compute. reflexivity.
  - vm_compute. reflexivity.
  - vm_compute. reflexivity.
  - destruct (Hok (VTuple [VStr "colorblind"])) as [s' [Hrun [Hst _]]].
    + vm_compute. reflexivity.
    + exists s'. split; assumption.
Defined.

Lemma set_cycle_needs_prop_cycle_witness :
  @setitem ref_env "cycle" (VStr "colorblind") (with_rcParams fresh [])
  = (Raise (invalid_key "axes.prop_cycle"), with_rcParams fresh []).
Proof.
  apply (@set_cycle_needs_prop_cycle ref_env (with_rcParams fresh [])
           (VStr "colorblind") (VTuple [VStr "colorblind"])).
  - vm_compute. reflexivity.
  - vm_compute. reflexivity.
  - vm_compute. reflexivity.
Defined.

(** ** The footprint of a call *)

Lemma same_at_refl k s : same_at k s s.
Proof. unfold same_at. auto. Qed.

Lemma same_at_trans k a b c : same_at k a b -> same_at k b c -> same_at k a c.
Proof. unfold same_at. intros [H1 H2] [H3 H4]. split; congruence. Qed.

Lemma same_at_set_rcParams k name v s :
  name <> k -> same_at k s (with_rcParams s (Dict.set (rcParams s) name v)).
Proof.
  intros Hne. unfold same_at. simpl. split; [|reflexivity].
  now apply DictFacts.get_set_other.
Qed.

Lemma same_at_set_rcSpecial k name v s :
  name <> k -> same_at k s (with_rcSpecial s (Dict.set (self_rcSpecial s) name v)).
Proof.
  intros Hne. unfold same_at. simpl. split; [reflexivity|].
  now apply DictFacts.get_set_other.
Qed.


Lemma same_at_held k s s' : same_at k s s' -> held s' k = held s k.
Proof.
  intros [Hp Hs]. unfold held, Dict.mem. now rewrite Hp, Hs.
Qed.

Lemma store_write_same_at k name v e :
  name <> k -> respects (same_at k) (store_write name v e).
Proof.
  intros Hne s r s' Hw. unfold same_at.
  now apply (store_write_other_get name v e s r s' k Hw).
Qed.

Section Footprint.

Context {env : Env}.

Lemma derive_minor_size_same_at k key val :
  ~ In k (if String.eqb key "ticklen" || String.eqb key "tickratio"
          then ["xtick.minor.size"; "ytick.minor.size"] else []) ->
  respects (same_at k) (derive_minor_size key val).
Proof.
  intros Hk. unfold derive_minor_size.
  destruct (String.eqb key "ticklen" || String.eqb key "tickratio");
    [|apply respects_ret; apply same_at_refl].
  unfold when.
  repeat (apply respects_bind; [apply same_at_trans| |intros]);
    try destruct (String.eqb key "tickratio");
    auto using respects_ret, respects_globals_item, respects_lift, same_at_refl;
    apply respects_modify; intros s; apply same_at_set_rcParams;
    intros <-; apply Hk; simpl; tauto.
Qed.

Lemma derive_minor_width_same_at k key val :
  ~ In k (if String.eqb key "linewidth" || String.eqb key "minorwidth"
          then ["xtick.minor.width"; "ytick.minor.width"; "gridminor.linewidth"]
          else []) ->
  respects (same_at k) (derive_minor_width key val).
Proof.
  intros Hk. unfold derive_minor_width.
  destruct (String.eqb key "linewidth" || String.eqb key "minorwidth");
    [|apply respects_ret; apply same_at_refl].
  unfold when.
  repeat (apply respects_bind; [apply same_at_trans| |intros]);
    try destruct (String.eqb key "linewidth");
    auto using respects_ret, respects_globals_item, respects_lift, same_at_refl;
    apply respects_modify; intros s;
    first [ apply same_at_set_rcParams | apply same_at_set_rcSpecial ];
    intros <-; apply Hk; simpl; tauto.
Qed.

Lemma set_global_same_at k key val :
  ~ In k (children key
            ++ (if String.eqb key "ticklen" || String.eqb key "tickratio"
                then ["xtick.minor.size"; "ytick.minor.size"] else [])
            ++ (if String.eqb key "linewidth" || String.eqb key "minorwidth"
                then ["xtick.minor.width"; "ytick.minor.width";
                      "gridminor.linewidth"] else []))%list ->
  respects (same_at k) (set_global key val).
Proof.
  intros Hk. unfold set_global.
  apply respects_bind; [apply same_at_trans| |intros _].
  { apply respects_modify. intros s. unfold same_at. simpl. auto. }
  apply respects_bind; [apply same_at_trans| |intros _].
  { apply derive_minor_size_same_at. intros Hin. apply Hk.
    apply in_or_app. right. apply in_or_app. now left. }
  apply respects_bind; [apply same_at_trans| |intros _].
  { apply derive_minor_width_same_at. intros Hin. apply Hk.
    apply in_or_app. right. apply in_or_app. now right. }
  apply respects_for_each; [apply same_at_refl|apply same_at_trans|].
  intros name Hname. apply store_write_same_at.
  intros <-. apply Hk. apply in_or_app. now left.
Qed.

Lemma prop_cycle_branch_same_at k c (in_globals : bool) :
  k <> "axes.prop_cycle" ->
  respects (same_at k)
    (if in_globals
     then set_global (resolve "axes.prop_cycle") (VCycler "color" c)
     else set_single (resolve "axes.prop_cycle") (VCycler "color" c)).
Proof.
  intros Hk. rewrite resolve_prop_cycle. destruct in_globals.
  - intros s r s' Hrun.
    unfold set_global, derive_minor_size, derive_minor_width in Hrun.
    cbn [String.eqb Ascii.eqb Bool.eqb orb when] in Hrun.
    change (children "axes.prop_cycle") with (@nil string) in Hrun.
    cbn [for_each] in Hrun.
    unfold bind, set_rcGlobals, modify, ret in Hrun.
    injection Hrun as _ <-. unfold same_at. simpl. auto.
  - apply store_write_same_at. congruence.
Qed.

(** A call with a value that is no mapping leaves, in both stores, every key
    outside its footprint as it was, however the call ends. *)
Lemma setitem_same_at key val k s r s' :
  is_dict val = false -> ~ In k (footprint key) ->
  setitem key val s = (r, s') -> same_at k s s'.
Proof.
  intros Hd Hk. unfold footprint in Hk. cbv zeta in Hk.
  unfold setitem. cbn [setitem_rec].
  apply respects_bind; [apply same_at_trans| |intros _].
  2:{ apply respects_modify. intros s0. unfold same_at. simpl. auto. }
  destruct (String.eqb (resolve key) "cycle").
  - assert (k <> "axes.prop_cycle") as Hne by (simpl in Hk; intuition).
    repeat (apply respects_bind; [apply same_at_trans| |intros]);
      first [ apply respects_lift; apply same_at_refl
            | apply respects_gets; apply same_at_refl
            | apply prop_cycle_branch_same_at; assumption
            | apply respects_modify; intros s0; unfold same_at; simpl; auto ].
  - intros s0 r0 s0' Hrun. unfold bind, gets in Hrun.
    destruct (Dict.mem (self_rcGlobals s0) (resolve key)).
    + revert Hrun. apply set_global_same_at. intros Hin. apply Hk. now right.
    + destruct val; try discriminate;
        (revert Hrun; apply store_write_same_at; intros <-; apply Hk; now left).
Qed.

End Footprint.

(** ** More on dictionaries *)





Lemma get_update_l {V} (a b : Dict.t V) k :
  Dict.mem b k = false -> Dict.get (Dict.update a b) k = Dict.get a k.
Proof.
  unfold Dict.update. revert a.
  induction b as [|[k0 v0] b IH]; intros a; simpl; [reflexivity|].
  rewrite DictFacts.mem_cons. intros Hm. apply orb_false_elim in Hm.
  destruct Hm as [Hk Hb]. rewrite IH by assumption.
  apply DictFacts.get_set_other. now apply String.eqb_neq.
Qed.

Lemma get_update_r {V} (a b : Dict.t V) k v :
  NoDup (Dict.keys b) -> Dict.get b k = Some v ->
  Dict.get (Dict.update a b) k = Some v.
Proof.
  unfold Dict.update. revert a.
  induction b as [|[k0 v0] b IH]; intros a Hnd; simpl; [discriminate|].
  inversion Hnd as [|? ? Hnotin Hnd']. subst.
  destruct (String.eqb k0 k) eqn:E.
  - apply String.eqb_eq in E. subst k0. intros [= ->].
    fold (Dict.update (Dict.set a k v) b).
    rewrite get_update_l; [apply DictFacts.get_set_same|].
    now apply DictFacts.mem_false_keys.
  - intros Hget. now apply IH.
Qed.


(** ** What a scope puts back *)




Section Restore.

Context {env : Env}.



End Restore.




(** ** The arguments of a scope *)

Lemma get_update {V} (a b : Dict.t V) k :
  NoDup (Dict.keys b) ->
  Dict.get (Dict.update a b) k
  = if Dict.mem b k then Dict.get b k else Dict.get a k.
Proof.
  intros Hnd. destruct (Dict.mem b k) eqn:Hm.
  - unfold Dict.mem in Hm. destruct (Dict.get b k) as [v|] eqn:Hg; [|discriminate].
    now apply get_update_r.
  - now apply get_update_l.
Qed.

Lemma is_empty_update {V} (a b : Dict.t V) :
  Dict.is_empty (Dict.update a b) = Dict.is_empty a && Dict.is_empty b.
Proof.
  unfold Dict.update. revert a.
  induction b as [|[k v] b IH]; intros a; simpl.
  - now rewrite andb_true_r.
  - rewrite IH. rewrite andb_false_r.
    assert (Dict.is_empty (Dict.set a k v) = false) as ->; [|reflexivity].
    destruct a as [|[k' v'] a]; simpl; [reflexivity|].
    now destruct (String.eqb k' k).
Qed.

Lemma find_app_first {A} (f : A -> bool) l1 l2 :
  find f (l1 ++ l2)
  = match find f l1 with Some x => Some x | None => find f l2 end.
Proof.
  induction l1 as [|x l1 IH]; simpl; [reflexivity|].
  now destruct (f x).
Qed.

Lemma merge_args_rejects args kwargs :
  Exists (fun a => is_dict a = false) args ->
  merge_args args kwargs
  = Raise (ValueError "rc_context() only accepts dictionary args and kwarg pairs.").
Proof.
  intros Hex. revert kwargs.
  induction Hex as [a args Ha|a args Hex IH]; intros kwargs.
  - destruct a; try reflexivity. discriminate.
  - destruct a; try reflexivity. simpl. apply IH.
Qed.

Lemma merge_args_mappings ds kwargs :
  Forall (fun d => NoDup (Dict.keys d)) ds ->
  exists m,
    merge_args (map VDict ds) kwargs = Ok m
    /\ (forall k, Dict.get m k = given k ds kwargs)
    /\ Dict.is_empty m = Dict.is_empty kwargs && forallb Dict.is_empty ds.
Proof.
  intros Hnd. revert kwargs.
  induction Hnd as [|d ds Hd Hds IH]; intros kwargs.
  - exists kwargs. simpl. repeat split; auto. now rewrite andb_true_r.
  - destruct (IH (Dict.update kwargs d)) as [m [Hm [Hget Hemp]]].
    exists m. simpl. split; [exact Hm|]. split.
    + intros k. rewrite Hget. unfold given. simpl rev. rewrite find_app_first.
      destruct (find (fun d0 => Dict.mem d0 k) (rev ds)); [reflexivity|].
      simpl. rewrite get_update by assumption.
      now destruct (Dict.mem d k).
    + rewrite Hemp, is_empty_update. now rewrite andb_assoc.
Qed.

(** A positional argument that is no dictionary, wherever it stands among
    the arguments, ends [rc_context.__init__] with its [ValueError]; nothing
    of the registry has been read or changed. *)
Theorem scope_init_rejects_any_non_mapping ax args kwargs s :
  Exists (fun a => is_dict a = false) args ->
  rc_context_init ax args kwargs s
  = (Raise (ValueError "rc_context() only accepts dictionary args and kwarg pairs."),
     s).
Proof.
  intros Hex. unfold rc_context_init, bind, lift.
  now rewrite (merge_args_rejects args kwargs Hex).
Qed.

Lemma scope_init_rejects_any_non_mapping_witness :
  rc_context_init VNone [VDict [("ticklen", VInt 10)]; VInt 3; VDict []]
    [("small", VInt 7)] fresh
  = (Raise (ValueError "rc_context() only accepts dictionary args and kwarg pairs."),
     fresh).
Proof.
  apply (scope_init_rejects_any_non_mapping VNone
           [VDict [("ticklen", VInt 10)]; VInt 3; VDict []]
           [("small", VInt 7)] fresh).
  apply Exists_cons_tl. apply Exists_cons_hd. reflexivity.
Defined.

(** With positional arguments that are all dictionaries the constructor
    returns and leaves the registry alone.  The overrides it keeps give for
    every key the entry of the last positional mapping that has the key, and
    the keyword argument only if none has it.  The scope is the one without
    change exactly when the keywords and every positional mapping are empty;
    otherwise it holds copies of the special store and of the external
    store as they are at construction. *)
Theorem scope_init_later_mapping_wins ax ds kwargs s :
  Forall (fun d => NoDup (Dict.keys d)) ds ->
  exists m,
    (forall k, Dict.get m k = given k ds kwargs)
    /\ rc_context_init ax (map VDict ds) kwargs s
       = (Ok (if Dict.is_empty kwargs && forallb Dict.is_empty ds
              then NoChange
              else Change m (self_rcSpecial s) (rcParams s) ax), s).
Proof.
  intros Hnd.
  destruct (merge_args_mappings ds kwargs Hnd) as [m [Hm [Hget Hemp]]].
  exists m. split; [exact Hget|].
  unfold rc_context_init, bind, lift. rewrite Hm, Hemp.
  now destruct (Dict.is_empty kwargs && forallb Dict.is_empty ds).
Qed.

Lemma scope_init_later_mapping_wins_witness :
  exists m,
    (forall k, Dict.get m k
               = given k [[("ticklen", VInt 10); ("small", VInt 6)];
                          [("ticklen", VInt 12)]]
                       [("small", VInt 7); ("large", VInt 11)])
    /\ rc_context_init VNone
         [VDict [("ticklen", VInt 10); ("small", VInt 6)];
          VDict [("ticklen", VInt 12)]]
         [("small", VInt 7); ("large", VInt 11)] fresh
       = (Ok (Change m (self_rcSpecial fresh) (rcParams fresh) VNone), fresh).
Proof.
  apply (scope_init_later_mapping_wins VNone
           [[("ticklen", VInt 10); ("small", VInt 6)]; [("ticklen", VInt 12)]]
           [("small", VInt 7); ("large", VInt 11)] fresh).
  repeat constructor; simpl; intuition congruence.
Defined.

(** ** A scope that fails on entry *)

(** When the override [(k, v)] is the first one whose assignment raises,
    the [with] statement raises that exception in the state the earlier
    overrides and the failed assignment have left: the body does not run,
    and [__exit__] never puts the earlier overrides back. *)
Theorem scope_enter_failure_keeps_earlier_overrides {env : Env} {A : Type}
        pre k v post sp rp ax (body : M A) s s1 e s2 :
  for_each pre (fun kv => setitem (fst kv) (snd kv)) s = (Ok tt, s1) ->
  setitem k v s1 = (Raise e, s2) ->
  with_context (Change (pre ++ (k, v) :: post)%list sp rp ax) body s
  = (Raise e, s2).
Proof.
  intros Hpre Hfail. unfold with_context. simpl rc_context_enter.
  rewrite for_each_app. rewrite (bind_run_ok _ _ _ _ _ Hpre).
  simpl. now rewrite (bind_run_raise _ _ _ _ _ Hfail).
Qed.

Lemma scope_enter_failure_keeps_earlier_overrides_witness :
  exists s2,
    @with_context ref_env unit
      (Change [("abc.weight", VStr "normal"); ("also.fake", VInt 1)]
              (self_rcSpecial fresh) (rcParams fresh) VNone)
      (ret tt) fresh
    = (Raise (invalid_key "also.fake"), s2)
    /\ stored fresh "abc.weight" = Some (VStr "bold")
    /\ stored s2 "abc.weight" = Some (VStr "normal").
Proof.
  pose (s1 := snd (@setitem ref_env "abc.weight" (VStr "normal") fresh)).
  exists (snd (@setitem ref_env "also.fake" (VInt 1) s1)).
  split.
  - apply (@scope_enter_failure_keeps_earlier_overrides ref_env unit
             [("abc.weight", VStr "normal")] "also.fake" (VInt 1) []
             (self_rcSpecial fresh) (rcParams fresh) VNone (ret tt) fresh s1).
    + vm_compute. reflexivity.
    + vm_compute. reflexivity.
  - split; vm_compute; reflexivity.
Defined.

(** ** Construction *)



Section Construction.

Context {env : Env}.

(** A call on a key that is not the colour cycle touches no figure. *)
Lemma setitem_figures key val s r s' :
  String.eqb (resolve key) "cycle" = false ->
  setitem key val s = (r, s') -> figures s' = figures s.
Proof.
  intros Hc. unfold setitem. cbn [setitem_rec]. rewrite Hc.
  set (R := fun a b : state => figures b = figures a).
  assert (forall a, R a a) as Rrefl by reflexivity.
  assert (forall a b c, R a b -> R b c -> R a c) as Rtrans
      by (unfold R; intros; congruence).
  intros Hrun. change (R s s'). revert s r s' Hrun.
  apply (respects_bind R Rtrans); [|intros _].
  2:{ apply respects_modify. intros s0. reflexivity. }
  intros s r s' Hrun. unfold bind, gets in Hrun.
  destruct (Dict.mem (self_rcGlobals s) (resolve key)) eqn:Hm.
  - apply (set_global_respects R (fun _ => True) Rrefl Rtrans) in Hrun; auto;
      intros; reflexivity.
  - destruct val;
      first [ apply (set_single_respects R Rrefl) in Hrun; auto;
              intros; reflexivity
            | apply (set_batch_respects R Rrefl Rtrans) in Hrun; auto;
              intros; reflexivity ].
Qed.






End Construction.

Section Constructor.

Context {env : Env}.




End Constructor.






(** ** Reading a category *)

Lemma match_prefix_app p q s :
  match_prefix (p ++ q)%list s
  = match match_prefix p s with
    | Some mid => match_prefix q mid
    | None => None
    end.
Proof.
  revert s. induction p as [|a p IH]; intros s; simpl.
  - reflexivity.
  - destruct s as [|c s].
    + now destruct q.
    + destruct (atom_matches a c); [apply IH | reflexivity].
Qed.

Lemma match_prefix_key key p rest :
  pattern_of key = Some p -> match_prefix p (key ++ rest) = Some rest.
Proof.
  revert p. induction key as [|c key IH]; intros p; simpl.
  - now intros [= <-].
  - destruct (is_meta c); [discriminate|].
    destruct (pattern_of key) as [p'|]; [|discriminate].
    intros [= <-]. simpl.
    destruct (Ascii.eqb c dot) eqn:E; simpl.
    + apply Ascii.eqb_eq in E. subst c. rewrite dot_not_newline. simpl. auto.
    + rewrite Ascii.eqb_refl. auto.
Qed.

Section CategoryScan.

Variables (key : string) (p : list atom).
Hypothesis Hp : pattern_of key = Some p.

Lemma exact_not_full c : begins_exactly key p c -> re_match_full p c = false.
Proof.
  intros Hex. unfold re_match_full.
  destruct (match_prefix p c) as [rest|] eqn:Hm; [|reflexivity].
  destruct (Hex rest Hm) as [_ [H1 H2]].
  apply orb_false_iff. split; now apply String.eqb_neq.
Qed.

Lemma search_dot_inv c :
  begins_exactly key p c -> re_search_dot p c = true ->
  exists sub, c = key ++ "." ++ sub /\ re_sub_any p c = sub.
Proof.
  intros Hex. unfold re_search_dot, re_sub_any. rewrite !match_prefix_app.
  destruct (match_prefix p c) as [mid|] eqn:Hm; [|discriminate].
  destruct (Hex mid Hm) as [Hc _].
  destruct mid as [|ch sub]; cbn [match_prefix atom_matches];
    [intros H; discriminate H|].
  destruct (Ascii.eqb dot ch) eqn:E; [|intros H; discriminate H].
  apply Ascii.eqb_eq in E. subst ch. intros _.
  exists sub. split; [exact Hc|]. now rewrite dot_not_newline.
Qed.

Lemma search_dot_sub sub : re_search_dot p (key ++ "." ++ sub) = true.
Proof.
  unfold re_search_dot. rewrite match_prefix_app.
  rewrite (match_prefix_key key p _ Hp). reflexivity.
Qed.

(** The scan of one store where every key is exact: [params] gains, for
    every sub-key, what the store holds for it. *)
Lemma scan_items_category d items params :
  incl (Dict.keys items) (Dict.keys d) ->
  (forall c, In c (Dict.keys items) -> begins_exactly key p c) ->
  exists params',
    scan_items key d items params = Continue params'
    /\ forall sub,
        Dict.get params' sub
        = if valid_sub sub && Dict.mem items (key ++ "." ++ sub)
          then Dict.get d (key ++ "." ++ sub)
          else Dict.get params sub.
Proof.
  revert params.
  induction items as [|[c v] items IH]; intros params Hincl Hex.
  - exists params. split; [reflexivity|]. intros sub.
    change (Dict.mem (@nil (string * value)) (key ++ "." ++ sub)) with false.
    now rewrite andb_false_r.
  - assert (incl (Dict.keys items) (Dict.keys d)) as Hincl'.
    { intros x Hx. apply Hincl. now right. }
    assert (forall c0, In c0 (Dict.keys items) -> begins_exactly key p c0) as Hex'.
    { intros c0 Hc0. apply Hex. now right. }
    assert (begins_exactly key p c) as Hc by (apply Hex; now left).
    cbn [scan_items]. rewrite Hp, (exact_not_full c Hc).
    destruct (re_search_dot p c) eqn:Hdot.
    + destruct (search_dot_inv c Hc Hdot) as [sub0 [Heq Hsub]].
      rewrite Hsub. fold (valid_sub sub0).
      destruct (valid_sub sub0) eqn:Hv.
      * destruct (item_of_key d c) as [w Hw]; [apply Hincl; now left|].
        rewrite Hw.
        destruct (IH (Dict.set params sub0 w) Hincl' Hex')
          as [params' [Hscan Hget]].
        exists params'. split; [exact Hscan|]. intros sub.
        rewrite Hget, DictFacts.mem_cons.
        destruct (String.eqb sub0 sub) eqn:E.
        -- apply String.eqb_eq in E. subst sub. rewrite <- Heq.
           rewrite String.eqb_refl, Hv. simpl.
           rewrite DictFacts.get_set_same.
           unfold Dict.item in Hw.
           destruct (Dict.get d c) as [w'|]; [|discriminate].
           injection Hw as ->.
           now destruct (Dict.mem items c).
        -- assert (String.eqb c (key ++ "." ++ sub) = false) as ->.
           { apply String.eqb_neq. rewrite Heq. intros H.
             apply string_app_inv_head in H. injection H as H.
             apply String.eqb_neq in E. congruence. }
           simpl. rewrite DictFacts.get_set_other; [reflexivity|].
           now apply String.eqb_neq.
      * destruct (IH params Hincl' Hex') as [params' [Hscan Hget]].
        exists params'. split; [exact Hscan|]. intros sub.
        rewrite Hget, DictFacts.mem_cons.
        destruct (valid_sub sub) eqn:Hv'; [|reflexivity].
        assert (String.eqb c (key ++ "." ++ sub) = false) as ->; [|reflexivity].
        apply String.eqb_neq. rewrite Heq. intros H.
        apply string_app_inv_head in H. injection H as H.
        subst sub0. congruence.
    + destruct (IH params Hincl' Hex') as [params' [Hscan Hget]].
      exists params'. split; [exact Hscan|]. intros sub.
      rewrite Hget, DictFacts.mem_cons.
      assert (String.eqb c (key ++ "." ++ sub) = false) as ->; [|reflexivity].
      apply String.eqb_neq. intros ->.
      rewrite search_dot_sub in Hdot. discriminate.
Qed.

End CategoryScan.

Lemma category_of_exact key p names c rest :
  pattern_of key = Some p -> category_of key names = true ->
  In c names -> match_prefix p c = Some rest ->
  c = key ++ rest /\ rest <> "" /\ rest <> String newline "".
Proof.
  intros Hp Hcat Hin Hm. unfold category_of in Hcat. rewrite Hp in Hcat.
  rewrite forallb_forall in Hcat. specialize (Hcat c Hin).
  rewrite Hm in Hcat.
  apply andb_prop in Hcat. destruct Hcat as [Hcat H3].
  apply andb_prop in Hcat. destruct Hcat as [H1 H2].
  apply String.eqb_eq in H1. apply negb_true_iff in H2, H3.
  repeat split; [exact H1 | now apply String.eqb_neq | now apply String.eqb_neq].
Qed.

(** Reading a category.  For a key that is not empty, no global, and that
    names a category of the keys of both stores and nothing else, [rc[key]]
    collects one level of sub-keys: the dictionary it returns has the entry
    [sub] exactly for the sub-keys without a dot for which a store holds
    [key.sub], with the special store's value where both stores have the
    key; a [ValueError] is raised when there is no such sub-key. *)
Theorem getitem_category s key :
  key <> "" -> Dict.mem (self_rcGlobals s) key = false ->
  category_of key (Dict.keys (rcParams s) ++ Dict.keys (self_rcSpecial s))%list
  = true ->
  exists params,
    (forall sub, Dict.get params sub = sub_view s key sub)
    /\ getitem s key
       = if Dict.is_empty params then Raise (invalid_key key)
         else Ok (VDict params).
Proof.
  intros Hne Hg Hcat.
  destruct (pattern_of key) as [p|] eqn:Hp;
    [|unfold category_of in Hcat; rewrite Hp in Hcat; discriminate].
  destruct (scan_items_category key p Hp (rcParams s) (rcParams s) [])
    as [params1 [Hscan1 Hget1]].
  { apply incl_refl. }
  { intros c Hc rest Hm. apply (category_of_exact key p _ c rest Hp Hcat); auto.
    apply in_or_app. now left. }
  destruct (scan_items_category key p Hp (self_rcSpecial s) (self_rcSpecial s)
              params1) as [params2 [Hscan2 Hget2]].
  { apply incl_refl. }
  { intros c Hc rest Hm. apply (category_of_exact key p _ c rest Hp Hcat); auto.
    apply in_or_app. now right. }
  exists params2. split.
  - intros sub. rewrite Hget2, Hget1. unfold sub_view.
    change (Dict.get (@nil (string * value)) sub) with (@None value).
    unfold Dict.mem.
    destruct (Dict.get (self_rcSpecial s) (key ++ "." ++ sub));
      destruct (Dict.get (rcParams s) (key ++ "." ++ sub));
      destruct (valid_sub sub); reflexivity.
  - unfold getitem.
    assert (String.eqb key "" = false) as -> by now apply String.eqb_neq.
    rewrite Hg, Hscan1, Hscan2. reflexivity.
Qed.

Lemma getitem_category_witness :
  exists params,
    getitem fresh "abc" = Ok (VDict params)
    /\ Dict.get params "weight" = Some (VStr "bold")
    /\ Dict.get params "fontsize" = Some (VInt 9).
Proof.
  destruct (getitem_category fresh "abc") as [params [Hview Hget]].
  - discriminate.
  - vm_compute. reflexivity.
  - vm_compute. reflexivity.
  - exists params.
    pose proof (Hview "weight") as Hw. pose proof (Hview "fontsize") as Hf.
    vm_compute in Hw, Hf.
    destruct params as [|entry params]; [discriminate|].
    simpl in Hget. repeat split; assumption.
Defined.

(** ** What a call leaves alone, key by key *)

(** A call with a value that is no mapping assigns, in the stores, only keys
    of its footprint; in the table of globals only the global its key
    resolves to; and it touches the figures only when that key is
    ['cycle'].  This holds however the call ends. *)
Theorem setitem_touches_only_footprint {env : Env} key val s r s' :
  is_dict val = false ->
  setitem key val s = (r, s') ->
  (forall k, ~ In k (footprint key) -> same_at k s s')
  /\ (forall g, g <> "axes.prop_cycle" -> g <> resolve key -> same_global g s s')
  /\ (resolve key <> "cycle" -> figures s' = figures s).
Proof.
  intros Hd Hrun. repeat split.
  - apply (setitem_same_at key val k s r s' Hd H Hrun).
  - apply (setitem_same_at key val k s r s' Hd H Hrun).
  - intros g Hg Hne. apply (setitem_same_global g key val s r s'); auto.
  - intros Hc. apply (setitem_figures key val s r s'); auto.
    now apply String.eqb_neq.
Qed.

Lemma setitem_touches_only_footprint_witness :
  exists s',
    @setitem ref_env "ytick.major.size" (VInt 10) fresh = (Ok tt, s')
    /\ stored s' "xtick.major.size" = Some (VInt 10)
    /\ same_at "xtick.major.pad" fresh s'
    /\ same_global "tickpad" fresh s'
    /\ figures s' = figures fresh.
Proof.
  exists (snd (@setitem ref_env "ytick.major.size" (VInt 10) fresh)).
  destruct (@setitem_touches_only_footprint ref_env "ytick.major.size" (VInt 10)
              fresh (Ok tt)
              (snd (@setitem ref_env "ytick.major.size" (VInt 10) fresh)))
    as [Hkeys [Hglobals Hfigures]].
  - reflexivity.
  - vm_compute. reflexivity.
  - split; [vm_compute; reflexivity|]. split; [vm_compute; reflexivity|].
    split; [apply Hkeys; vm_compute; intuition discriminate|].
    split; [apply Hglobals; vm_compute; discriminate|].
    apply Hfigures. vm_compute. discriminate.
Defined.

(** ** Construction links every global *)



Section Linking.

Context {env : Env}.



End Linking.





(** ** Batch writes *)

Lemma set_batch_same_at {env : Env} k key (kwargs : dict) :
  ~ In k (composed key kwargs) -> respects (same_at k) (set_batch key kwargs).
Proof.
  intros Hk. unfold set_batch.
  apply (respects_for_each (same_at k) (same_at_refl k) (same_at_trans k)).
  intros kv Hin. apply store_write_same_at. intros Heq. apply Hk.
  unfold composed. rewrite <- Heq.
  apply (in_map (fun kv0 => key ++ "." ++ fst kv0) kwargs kv Hin).
Qed.

(** A batch write [rc[key] = {...}] on a key that is neither ['cycle'] nor
    a global, nor an alias of one, assigns only the composed keys
    [key.name], leaves the table of globals and the figures alone, and with
    an empty dictionary returns having changed nothing but the flag, even
    for a key that no store knows. *)
Theorem setitem_batch_touches_only_composed {env : Env} key kwargs s r s' :
  String.eqb (resolve key) "cycle" = false ->
  Dict.mem (self_rcGlobals s) (resolve key) = false ->
  setitem key (VDict kwargs) s = (r, s') ->
  (forall k, ~ In k (composed (resolve key) kwargs) -> same_at k s s')
  /\ self_rcGlobals s' = self_rcGlobals s
  /\ figures s' = figures s
  /\ (kwargs = [] -> r = Ok tt /\ s' = with_init s false).
Proof.
  intros Hc Hg Hrun. split; [|split; [|split]].
  - intros k Hk. rewrite setitem_batch in Hrun by assumption.
    revert s r s' Hg Hrun. intros s r s' _.
    apply (respects_bind (same_at k) (same_at_trans k)).
    + now apply set_batch_same_at.
    + intros _. apply respects_modify. intros s0. unfold same_at. simpl. auto.
  - rewrite setitem_batch in Hrun by assumption.
    set (R := fun a b : state => self_rcGlobals b = self_rcGlobals a).
    assert (forall a, R a a) as Rrefl by reflexivity.
    assert (forall a b c, R a b -> R b c -> R a c) as Rtrans
        by (unfold R; intros; congruence).
    change (R s s'). revert s r s' Hg Hrun. intros s r s' _.
    apply (respects_bind R Rtrans).
    + intros s0 r0 s0' Hb.
      apply (set_batch_respects R Rrefl Rtrans) in Hb; auto;
        intros; reflexivity.
    + intros _. apply respects_modify. intros s0. reflexivity.
  - apply (setitem_figures key (VDict kwargs) s r s' Hc Hrun).
  - intros ->. rewrite setitem_batch in Hrun by assumption.
    unfold set_batch, bind, modify in Hrun. simpl in Hrun.
    unfold ret in Hrun. now injection Hrun as <- <-.
Qed.

Lemma setitem_batch_touches_only_composed_witness :
  (exists s',
      @setitem ref_env "ytick" (VDict [("major.size", VFloat 7)]) fresh
      = (Ok tt, s')
      /\ stored s' "ytick.major.size" = Some (VFloat 7)
      /\ same_at "xtick.major.size" fresh s'
      /\ self_rcGlobals s' = self_rcGlobals fresh)
  /\ @setitem ref_env "no.such" (VDict []) fresh = (Ok tt, with_init fresh false).
Proof.
  split.
  - exists unlinked.
    destruct (@setitem_batch_touches_only_composed ref_env "ytick"
                [("major.size", VFloat 7)] fresh (Ok tt) unlinked)
      as [Hkeys [Hglobals _]].
    + reflexivity.
    + vm_compute. reflexivity.
    + vm_compute. reflexivity.
    + split; [vm_compute; reflexivity|]. split; [vm_compute; reflexivity|].
      split; [|exact Hglobals].
      apply Hkeys. vm_compute. intuition discriminate.
  - destruct (@setitem_batch_touches_only_composed ref_env "no.such" []
                fresh (fst (@setitem ref_env "no.such" (VDict []) fresh))
                (snd (@setitem ref_env "no.such" (VDict []) fresh)))
      as [_ [_ [_ Hempty]]].
    + reflexivity.
    + vm_compute. reflexivity.
    + now destruct (@setitem ref_env "no.such" (VDict []) fresh).
    + destruct (Hempty eq_refl) as [Hr Hs].
      rewrite (surjective_pairing (@setitem ref_env "no.such" (VDict []) fresh)).
      now rewrite Hr, Hs.
Defined.

(** ** The full dictionary *)

(** [rc['']] returns every setting in one dictionary: a key is in it when a
    store holds it, and where both stores hold a key the value is the
    special store's.  (A read of the key itself, [rc[key]], answers from the
    external store first.) *)
Theorem getitem_empty_key_merges s :
  NoDup (Dict.keys (self_rcSpecial s)) ->
  exists d,
    getitem s "" = Ok (VDict d)
    /\ (forall k, Dict.mem d k = held s k)
    /\ (forall k, Dict.get d k
                  = match Dict.get (self_rcSpecial s) k with
                    | Some v => Some v
                    | None => Dict.get (rcParams s) k
                    end).
Proof.
  intros Hnd. exists (merged s). split; [reflexivity|]. split.
  - intros k. unfold merged, held. apply DictFacts.mem_update.
  - intros k. unfold merged. rewrite get_update by assumption.
    unfold Dict.mem. now destruct (Dict.get (self_rcSpecial s) k).
Qed.

Lemma getitem_empty_key_merges_witness :
  exists d,
    getitem fresh "" = Ok (VDict d)
    /\ Dict.get d "abc.weight" = Some (VStr "bold")
    /\ Dict.get d "lines.linewidth" = Some (VFloat 1.3).
Proof.
  destruct (getitem_empty_key_merges fresh) as [d [Hget [_ Hview]]].
  - apply nodupb_sound. vm_compute. reflexivity.
  - exists d. split; [exact Hget|].
    rewrite !Hview. split; vm_compute; reflexivity.
Defined.
